(** * microbus: event bus and event loop

    A shallow embedding of [src/microbus.hpp] and the properties of its
    event bus (subscribe / unsubscribe / trigger / clear) and of its event
    loop (enqueue_event / wait_until_finished / stop / process_event_loop).

    Conventions of the embedding.
    - [std::unordered_map<std::string, std::vector<...>>] is a
      [gmap string (list ...)]; [operator[]] is [index], which inserts a
      default (empty) vector when the key is absent, as the C++ one does.
    - [int] is a 32 bit two's complement integer, kept as a [Z] in
      [INT_MIN .. INT_MAX]; [next_id_++] is written with its wrap-around
      ([int_wrap]).  The C++ standard leaves signed overflow undefined; the
      wrap is what the usual ABIs produce.
    - A handler is a [std::function<void(Args...)>]: it acts on the rest of
      the program (the [world]) and either returns or throws.  Handlers do
      not call back into the bus they are subscribed to (the bus lock is
      held while they run).
    - Locks are not represented as data: a function of the bus is one
      critical section, hence one atomic transition of the model. *)

From stdpp Require Import gmap strings list fin_maps.
From Stdlib Require Import ZArith Lia.

Open Scope Z_scope.

(** ** The C++ [int] *)

Definition INT_MAX : Z := 2147483647.
Definition INT_MIN : Z := -2147483648.

Definition int_wrap (z : Z) : Z :=
  (z + 2147483648) mod 4294967296 - 2147483648.

(** ** The event bus *)

Section Bus.

(** [args] is the argument tuple behind the [void*] of [invoke];
    [world] is the state the handlers act on; [exn] is what they throw. *)
Context {args world exn : Type}.

(** How a call ends: it returns, or an exception leaves it. *)
Inductive completion :=
| Returns (w : world)
| Throws (e : exn) (w : world).

Definition world_of (c : completion) : world :=
  match c with Returns w => w | Throws _ w => w end.

(** [struct type_erased_handler { virtual void invoke(void* args) = 0; }] *)
Record type_erased_handler := concrete_handler {
  invoke : args → world → completion
}.

(** [using handler_ptr = std::unique_ptr<type_erased_handler>] *)
#[local] Abbreviation handler_ptr := type_erased_handler.

(** [class event_bus]: the registry and the id counter. *)
Record event_bus := mk_event_bus {
  subscribers_ : gmap string (list (Z * handler_ptr));
  next_id_ : Z
}.

(** A freshly constructed bus: empty map, [next_id_ = 0]. *)
Definition new_bus : event_bus :=
  {| subscribers_ := ∅; next_id_ := 0 |}.

(** [subscribers_.count(event_name)] *)
Definition count (event_name : string)
    (m : gmap string (list (Z * handler_ptr))) : nat :=
  match m !! event_name with Some _ => 1%nat | None => 0%nat end.

(** [subscribers_[event_name]]: the vector at the key, default-inserted
    when the key is absent. Returns the vector and the map after the
    access. *)
Definition index (event_name : string)
    (m : gmap string (list (Z * handler_ptr)))
  : list (Z * handler_ptr) * gmap string (list (Z * handler_ptr)) :=
  match m !! event_name with
  | Some v => (v, m)
  | None => ([], <[event_name := []]> m)
  end.

(** [v.erase(std::remove_if(v.begin(), v.end(), p), v.end())] *)
Definition erase_remove_if {A} (p : A → bool) (v : list A) : list A :=
  List.filter (λ x, negb (p x)) v.

(** [int subscribe(const std::string&, event_handler<Args...>)] *)
Definition subscribe (event_name : string) (handler : type_erased_handler)
    (b : event_bus) : Z * event_bus :=
  let id := next_id_ b in
  let next := int_wrap (next_id_ b + 1) in
  let '(handlers, m) := index event_name (subscribers_ b) in
  (id, {| subscribers_ := <[event_name := handlers ++ [(id, handler)]]> m;
          next_id_ := next |}).

(** [void unsubscribe(const std::string&, int id)] *)
Definition unsubscribe (event_name : string) (id : Z) (b : event_bus)
  : event_bus :=
  match count event_name (subscribers_ b) with
  | O => b
  | S _ =>
      let '(handlers, m) := index event_name (subscribers_ b) in
      let handlers' :=
        erase_remove_if (λ pair, bool_decide (pair.1 = id)) handlers in
      let m' := <[event_name := handlers']> m in
      match handlers' with
      | [] => {| subscribers_ := delete event_name m';
                 next_id_ := next_id_ b |}
      | _ :: _ => {| subscribers_ := m'; next_id_ := next_id_ b |}
      end
  end.

(** One [handler->invoke(args)] call, as it is observed. *)
Definition call : Type := type_erased_handler * args.

(** [for (const auto& [id, handler] : v) handler->invoke(args);]
    The loop stops at the first handler that throws. Besides the way the
    loop ends, the calls it made are returned, in order. *)
Fixpoint invoke_each (v : list (Z * handler_ptr)) (a : args) (w : world)
  : list call * completion :=
  match v with
  | [] => ([], Returns w)
  | (_, handler) :: rest =>
      match invoke handler a w with
      | Returns w' =>
          let '(cs, r) := invoke_each rest a w' in ((handler, a) :: cs, r)
      | Throws e w' => ([(handler, a)], Throws e w')
      end
  end.

(** [void trigger(const std::string&, Args&&... params)] *)
Definition trigger (event_name : string) (params : args) (b : event_bus)
    (w : world) : event_bus * (list call * completion) :=
  match count event_name (subscribers_ b) with
  | O => (b, ([], Returns w))
  | S _ =>
      let tuple_args := params in
      let '(handlers, m) := index event_name (subscribers_ b) in
      ({| subscribers_ := m; next_id_ := next_id_ b |},
       invoke_each handlers tuple_args w)
  end.

(** [void trigger_impl(const std::string&, void* args)] *)
Definition trigger_impl (event_name : string) (a : args) (b : event_bus)
    (w : world) : event_bus * (list call * completion) :=
  match count event_name (subscribers_ b) with
  | O => (b, ([], Returns w))
  | S _ =>
      let '(handlers, m) := index event_name (subscribers_ b) in
      ({| subscribers_ := m; next_id_ := next_id_ b |},
       invoke_each handlers a w)
  end.

(** [void clear()] *)
Definition clear (b : event_bus) : event_bus :=
  {| subscribers_ := ∅; next_id_ := next_id_ b |}.

(** The handler list of a name; the empty list when the name is absent. *)
Definition handlers_of (b : event_bus) (event_name : string)
  : list (Z * handler_ptr) :=
  default [] (subscribers_ b !! event_name).


(** *** Sequences of calls on one bus *)

(** A call of the public interface, as a client makes it. *)
Inductive bus_op :=
| OpSubscribe (event_name : string) (handler : type_erased_handler)
| OpUnsubscribe (event_name : string) (id : Z)
| OpTrigger (event_name : string) (params : args)
| OpClear.

(** What the client has seen once the call is over: for [subscribe], the
    id it returned. *)
Inductive bus_event :=
| EvSubscribed (event_name : string) (handler : type_erased_handler) (id : Z)
| EvUnsubscribed (event_name : string) (id : Z)
| EvTriggered (event_name : string) (params : args)
| EvCleared.

(** An exception that leaves [trigger] is the caller's to handle; the
    handlers' effects up to the throw stay. *)
Definition run_op (o : bus_op) (s : event_bus * world)
  : (event_bus * world) * bus_event :=
  match o with
  | OpSubscribe n h =>
      let '(id, b') := subscribe n h s.1 in ((b', s.2), EvSubscribed n h id)
  | OpUnsubscribe n id => ((unsubscribe n id s.1, s.2), EvUnsubscribed n id)
  | OpTrigger n a =>
      let '(b', (_, r)) := trigger n a s.1 s.2 in
      ((b', world_of r), EvTriggered n a)
  | OpClear => ((clear s.1, s.2), EvCleared)
  end.

Fixpoint run_ops (os : list bus_op) (s : event_bus * world)
  : (event_bus * world) * list bus_event :=
  match os with
  | [] => (s, [])
  | o :: os' =>
      let '(s', e) := run_op o s in
      let '(s'', es) := run_ops os' s' in
      (s'', e :: es)
  end.

(** The ids that [subscribe] returned, oldest first. *)
Definition ids_returned (es : list bus_event) : list Z :=
  omap (λ e, match e with EvSubscribed _ _ id => Some id | _ => None end) es.

Definition is_subscribe (o : bus_op) : bool :=
  match o with OpSubscribe _ _ => true | _ => false end.

(** How many of the calls are calls to [subscribe]. *)
Definition subscribe_calls (os : list bus_op) : nat :=
  length (List.filter is_subscribe os).

(** *** The subscriptions, read off the history of calls

    This follows the wording of the specification, not the code: a
    subscription is current when the [subscribe] that made it has not
    been followed by an [unsubscribe] of its name and id, nor by a
    [clear]. *)
Definition cancels (event_name : string) (id : Z) (e : bus_event) : bool :=
  match e with
  | EvUnsubscribed n i => bool_decide (n = event_name) && bool_decide (i = id)
  | EvCleared => true
  | _ => false
  end.

Fixpoint currently_subscribed (event_name : string) (es : list bus_event)
  : list (Z * type_erased_handler) :=
  match es with
  | [] => []
  | EvSubscribed n h id :: later =>
      if bool_decide (n = event_name) && negb (existsb (cancels n id) later)
      then (id, h) :: currently_subscribed event_name later
      else currently_subscribed event_name later
  | _ :: later => currently_subscribed event_name later
  end.

(** The calls that reach every handler of a list, in order. *)
Definition calls_of (v : list (Z * type_erased_handler)) (a : args)
  : list call :=
  map (λ p, (p.2, a)) v.

End Bus.

Arguments completion : clear implicits.
Arguments type_erased_handler : clear implicits.
Arguments event_bus : clear implicits.
Arguments call : clear implicits.
Arguments bus_op : clear implicits.
Arguments bus_event : clear implicits.

(** ** The event loop

    Several threads use a loop: client threads, which call
    [enqueue_event], [wait_until_finished], [stop] and the destructor, and
    the worker thread, which runs [process_event_loop]. The queue and the
    stop flag are only accessed under [queue_mutex_], so the threads
    interleave at the grain of these critical sections. The model is a
    transition system: one function per client call, one for the next step
    of the worker, and a schedule that says which thread moves next. The
    worker's call [event_task()] is made outside [queue_mutex_]; it is a
    step of its own, after the step that pops the task. *)

Section Loop.

Context {args world exn : Type}.

#[local] Abbreviation completion := (completion world exn).
#[local] Abbreviation event_bus := (event_bus args world exn).
#[local] Abbreviation bus_op := (bus_op args world exn).

(** The address a [std::shared_ptr<event_bus>] holds. *)
Definition bus_ref := nat.

(** The closure that [enqueue_event] puts in the queue,
    [[bus, event_name, tuple_args] { bus->trigger_impl(event_name,
    tuple_args.get()); }], by what it captures. *)
Record task := mk_task {
  task_bus : bus_ref;
  task_event : string;
  task_args : args
}.

(** Where the worker thread is in [process_event_loop]. *)
Inductive worker_pc :=
| AtWait               (* at [queue_condition_.wait], top of the loop *)
| Holding (event_task : task)
                       (* popped, lock released, before [event_task()] *)
| AtNotify             (* [event_task()] returned, before [notify_all] *)
| Exited.              (* left the loop by [break]: the thread is over *)

(** The members of [class event_loop] that carry state. *)
Record event_loop := mk_event_loop {
  async_event_queue_ : list task;
  stop_flag_ : bool;
  event_loop_thread_ : worker_pc
}.

(** The loop with what it acts on, and two history variables that are not
    in the source: [enqueued] lists every task ever given to
    [enqueue_event], in call order; [completed] lists the tasks whose
    [event_task()] call has returned, in the order they returned. *)
Record system := mk_system {
  loop : event_loop;
  buses : gmap bus_ref event_bus;
  sys_world : world;
  enqueued : list task;
  completed : list task
}.

(** The bus behind a reference; a bus not touched yet is as
    [std::make_shared<event_bus>()] made it. *)
Definition bus_at (h : gmap bus_ref event_bus) (r : bus_ref) : event_bus :=
  default new_bus (h !! r).

(** [event_loop()]: the flag is false, the queue empty, the thread started. *)
Definition new_loop : event_loop :=
  {| async_event_queue_ := []; stop_flag_ := false;
     event_loop_thread_ := AtWait |}.

Definition init (h : gmap bus_ref event_bus) (w : world) : system :=
  {| loop := new_loop; buses := h; sys_world := w;
     enqueued := []; completed := [] |}.

(** What a step of one thread gives: the next state; nothing, because the
    thread is blocked (or over); or [std::terminate], called because an
    exception left the worker thread's function. *)
Inductive outcome :=
| Next (s : system)
| Blocked
| Terminate (w : world).

(** [void enqueue_event(std::shared_ptr<event_bus>&, const std::string&,
    Args&&...)] *)
Definition enqueue_event (bus : bus_ref) (event_name : string)
    (params : args) (s : system) : outcome :=
  let event_task := mk_task bus event_name params in
  Next {| loop := {| async_event_queue_ :=
                       async_event_queue_ (loop s) ++ [event_task];
                     stop_flag_ := stop_flag_ (loop s);
                     event_loop_thread_ := event_loop_thread_ (loop s) |};
          buses := buses s; sys_world := sys_world s;
          enqueued := enqueued s ++ [event_task];
          completed := completed s |}.

(** [void wait_until_finished()]: [wait_condition_.wait(lock, pred)] is
    [while (!pred()) wait(lock);], and a wait may wake at any time, so the
    call returns at a moment when [async_event_queue_.empty()] holds and
    is blocked otherwise. *)
Definition wait_until_finished (s : system) : outcome :=
  match async_event_queue_ (loop s) with
  | [] => Next s
  | _ :: _ => Blocked
  end.

(** [void stop()] *)
Definition stop (s : system) : outcome :=
  Next {| loop := {| async_event_queue_ := async_event_queue_ (loop s);
                     stop_flag_ := true;
                     event_loop_thread_ := event_loop_thread_ (loop s) |};
          buses := buses s; sys_world := sys_world s;
          enqueued := enqueued s; completed := completed s |}.

(** [event_loop_thread_.join()], the second half of [~event_loop()]:
    returns once the thread is over. *)
Definition join (s : system) : outcome :=
  match event_loop_thread_ (loop s) with
  | Exited => Next s
  | _ => Blocked
  end.

(** One step of the worker thread in [process_event_loop]. *)
Definition process_event_loop (s : system) : outcome :=
  let q := async_event_queue_ (loop s) in
  let stop_flag := stop_flag_ (loop s) in
  match event_loop_thread_ (loop s) with
  | AtWait =>
      match q with
      | [] =>
          if stop_flag
          then (* [if (stop_flag_ && async_event_queue_.empty()) break;] *)
            Next {| loop := {| async_event_queue_ := q;
                               stop_flag_ := stop_flag;
                               event_loop_thread_ := Exited |};
                    buses := buses s; sys_world := sys_world s;
                    enqueued := enqueued s; completed := completed s |}
          else (* the wait predicate is false *) Blocked
      | front :: rest =>
          (* [event_task = std::move(front()); pop();] *)
          Next {| loop := {| async_event_queue_ := rest;
                             stop_flag_ := stop_flag;
                             event_loop_thread_ := Holding front |};
                  buses := buses s; sys_world := sys_world s;
                  enqueued := enqueued s; completed := completed s |}
      end
  | Holding event_task =>
      (* [event_task();], with no handler around it *)
      let r := task_bus event_task in
      let '(b', (_, c)) :=
        trigger_impl (task_event event_task) (task_args event_task)
          (bus_at (buses s) r) (sys_world s) in
      match c with
      | Returns w' =>
          Next {| loop := {| async_event_queue_ := q;
                             stop_flag_ := stop_flag;
                             event_loop_thread_ := AtNotify |};
                  buses := <[r := b']> (buses s); sys_world := w';
                  enqueued := enqueued s;
                  completed := completed s ++ [event_task] |}
      | Throws _ w' => Terminate w'
      end
  | AtNotify =>
      (* [wait_condition_.notify_all();], then back to the top *)
      Next {| loop := {| async_event_queue_ := q;
                         stop_flag_ := stop_flag;
                         event_loop_thread_ := AtWait |};
              buses := buses s; sys_world := sys_world s;
              enqueued := enqueued s; completed := completed s |}
  | Exited => Blocked
  end.

(** A client's direct call on a bus. *)
Definition call_bus (r : bus_ref) (o : bus_op) (s : system) : outcome :=
  let '((b', w'), _) := run_op o (bus_at (buses s) r, sys_world s) in
  Next {| loop := loop s; buses := <[r := b']> (buses s); sys_world := w';
          enqueued := enqueued s; completed := completed s |}.

(** Which thread moves next, and for a client thread with which call. *)
Inductive label :=
| CallEnqueue (bus : bus_ref) (event_name : string) (params : args)
| CallWait
| CallStop
| CallJoin
| CallBus (bus : bus_ref) (o : bus_op)
| Worker.

Definition step (l : label) (s : system) : outcome :=
  match l with
  | CallEnqueue bus event_name params => enqueue_event bus event_name params s
  | CallWait => wait_until_finished s
  | CallStop => stop s
  | CallJoin => join s
  | CallBus r o => call_bus r o s
  | Worker => process_event_loop s
  end.

(** A schedule, run from a state. *)
Fixpoint run (ls : list label) (s : system) : outcome :=
  match ls with
  | [] => Next s
  | l :: ls' =>
      match step l s with
      | Next s' => run ls' s'
      | Blocked => Blocked
      | Terminate w => Terminate w
      end
  end.

(** The task the worker has popped and not finished, if any. *)
Definition in_flight (s : system) : list task :=
  match event_loop_thread_ (loop s) with
  | Holding t => [t]
  | _ => []
  end.

(** The tasks that [enqueue_event] calls of a schedule put in the queue. *)
Definition tasks_of (ls : list label) : list task :=
  omap (λ l, match l with
             | CallEnqueue b n a => Some (mk_task b n a)
             | _ => None
             end) ls.

End Loop.

Arguments task : clear implicits.
Arguments worker_pc : clear implicits.
Arguments event_loop : clear implicits.
Arguments system : clear implicits.
Arguments outcome : clear implicits.
Arguments label : clear implicits.

(** ** Predicates used to state the properties *)

Section Predicates.

Context {args world exn : Type}.

#[local] Abbreviation event_bus := (event_bus args world exn).

(** A name is in the registry exactly when handlers are listed for it. *)
Definition registry_inv (b : event_bus) : Prop :=
  ∀ event_name : string,
    is_Some (subscribers_ b !! event_name) ↔ handlers_of b event_name ≠ [].

#[local] Abbreviation system := (system args world exn).

(** What the history variables say of the loop: the tasks enqueued so far
    are, in order, those that completed, the one in flight and those still
    queued; and the worker thread is over only after a stop request. *)
Definition loop_inv (s : system) : Prop :=
  enqueued s = completed s ++ in_flight s ++ async_event_queue_ (loop s) ∧
  (event_loop_thread_ (loop s) = Exited → stop_flag_ (loop s) = true).

(** No handler of any bus throws, whatever it is called with. *)
Definition never_throws (h : gmap bus_ref event_bus) : Prop :=
  ∀ (r : bus_ref) (event_name : string) (a : args) (w : world),
    ∃ w', (invoke_each (handlers_of (bus_at h r) event_name) a w).2
            = Returns w'.

(** The [k]-th task to complete along a schedule, [t], was run at a step
    of it: at that step the worker held [t] with [k] tasks completed
    before, its call [event_task()], which is [trigger_impl] on the bus and
    the arguments of [t], returned, and the world of the next state is the
    one this call left. *)
Definition executed_in (ls : list (label args world exn)) (s0 : system)
    (k : nat) (t : task args) : Prop :=
  ∃ pre post s_pre s_post cs,
    ls = pre ++ Worker :: post ∧
    run pre s0 = Next s_pre ∧
    event_loop_thread_ (loop s_pre) = Holding t ∧
    length (completed s_pre) = k ∧
    (trigger_impl (task_event t) (task_args t)
       (bus_at (buses s_pre) (task_bus t)) (sys_world s_pre)).2
      = (cs, Returns (sys_world s_post)) ∧
    process_event_loop s_pre = Next s_post ∧
    completed s_post = completed s_pre ++ [t].

End Predicates.

(** ** Sample handlers and buses

    Concrete instances on which the properties are exercised: the argument
    tuple is one integer, the world is a log of what the handlers printed,
    an exception is its message. *)

Module Sample.

Definition log : Type := list (string * Z).

(** A handler that prints its tag and argument. *)
Definition logger (tag : string) : type_erased_handler Z log string :=
  concrete_handler (λ a w, Returns (w ++ [(tag, a)])).

(** A handler that throws. *)
Definition thrower (msg : string) : type_erased_handler Z log string :=
  concrete_handler (λ a w, Throws msg w).

(** A bus with one subscription, of id 0, on the name OnCalc. *)
Definition one_subscriber : event_bus Z log string :=
  (subscribe "OnCalc" (logger "calc") new_bus).2.

(** A throwing handler subscribed before a printing one. *)
Definition thrower_first : list (bus_op Z log string) :=
  [OpSubscribe "OnMessage" (thrower "boom");
   OpSubscribe "OnMessage" (logger "second")].

(** As many [subscribe] calls as an [int] has values from 0 up, and one
    more. *)
Definition many_subscribes : list (bus_op Z log string) :=
  repeat (OpSubscribe "OnCalc" (logger "calc")) (Z.to_nat 2147483648)
    ++ [OpSubscribe "OnCalc" (logger "calc")].

(** The bus of the loop examples, at reference 0: a printing handler on
    OnFactorial and a throwing one on OnMessage. *)
Definition shared_event_bus : event_bus Z log string :=
  (subscribe "OnMessage" (thrower "boom")
     (subscribe "OnFactorial" (logger "factorial") new_bus).2).2.

Definition shared_buses : gmap bus_ref (event_bus Z log string) :=
  {[ 0%nat := shared_event_bus ]}.

(** A store whose only handler prints. *)
Definition quiet_buses : gmap bus_ref (event_bus Z log string) :=
  {[ 0%nat := (subscribe "OnFactorial" (logger "factorial") new_bus).2 ]}.

(** One task is enqueued, the worker pops it, and a client's
    [wait_until_finished] runs before the worker goes on. *)
Definition early_wait : list (label Z log string) :=
  [CallEnqueue 0%nat "OnFactorial" 15; Worker; CallWait].

(** Two tasks are enqueued, the first of which throws, and the worker pops
    and runs the first. *)
Definition throwing_task : list (label Z log string) :=
  [CallEnqueue 0%nat "OnMessage" 1; CallEnqueue 0%nat "OnFactorial" 2;
   Worker; Worker].

(** Three tasks for two buses, and the worker at work on them: it has run
    the first two and not yet popped the third. *)
Definition three_tasks : list (label Z log string) :=
  [CallEnqueue 0%nat "OnFactorial" 15; CallEnqueue 1%nat "OnFactorial" 16;
   CallEnqueue 0%nat "OnFactorial" 17;
   Worker; Worker; Worker; Worker; Worker].

(** Two tasks are enqueued and the worker has popped the first when
    [stop()] is called. *)
Definition before_stop : list (label Z log string) :=
  [CallEnqueue 0%nat "OnFactorial" 15; CallEnqueue 0%nat "OnFactorial" 16;
   Worker].

(** After [stop()]: the worker drains the queue and leaves its loop between
    two client calls, the second of which enqueues a task too late. *)
Definition after_stop : list (label Z log string) :=
  [CallBus 0%nat (OpUnsubscribe "OnMessage" 1);
   Worker; Worker; Worker; Worker; Worker; Worker;
   CallEnqueue 0%nat "OnFactorial" 17; CallStop].

(** A loop that was stopped while idle, whose worker has left. *)
Definition stopped_idle : list (label Z log string) := [CallStop; Worker].

End Sample.

(** ** Further predicates and reference functions *)

Section Coverage.

Context {args world exn : Type}.

#[local] Abbreviation completion := (completion world exn).
#[local] Abbreviation event_bus := (event_bus args world exn).
#[local] Abbreviation task := (task args).
#[local] Abbreviation label := (label args world exn).

(** The ids in the registry are ids the counter has handed out, and no two
    subscriptions of the bus carry the same id. *)
Definition ids_inv (b : event_bus) : Prop :=
  0 ≤ next_id_ b ≤ INT_MAX ∧
  (∀ n p, p ∈ handlers_of b n → 0 ≤ p.1 < next_id_ b) ∧
  (∀ n, NoDup (handlers_of b n).*1) ∧
  (∀ n1 n2 p1 p2,
     p1 ∈ handlers_of b n1 → p2 ∈ handlers_of b n2 → p1.1 = p2.1 → n1 = n2).

(** The tasks' events dispatched one after the other by direct calls of
    [trigger], on the caller's thread: the synchronous counterpart of what
    the loop does with them. *)
Fixpoint run_tasks (h : gmap bus_ref event_bus) (ts : list task) (w : world)
  : completion :=
  match ts with
  | [] => Returns w
  | t :: ts' =>
      match (trigger (task_event t) (task_args t) (bus_at h (task_bus t)) w).2.2
      with
      | Returns w' => run_tasks h ts' w'
      | Throws e w' => Throws e w'
      end
  end.

(** Whether a step is a client's direct call on a bus. *)
Definition is_call_bus (l : label) : bool :=
  match l with CallBus _ _ => true | _ => false end.

End Coverage.

(** ** The helper of the demonstration program ([examples.cpp]) *)

(** [int64_t]: 64 bit two's complement. *)
Definition int64_wrap (z : Z) : Z :=
  (z + 9223372036854775808) mod 18446744073709551616 - 9223372036854775808.

(** [std::iota(first, last, value)] on [len] elements of type [int]. *)
Fixpoint iota (len : nat) (value : Z) : list Z :=
  match len with
  | O => []
  | S len' => value :: iota len' (int_wrap (value + 1))
  end.

(** [std::accumulate(first, last, init, std::multiplies<>())] with an
    [init] of type [long long]. *)
Definition accumulate (numbers : list Z) (init : Z) : Z :=
  fold_left (λ acc x, int64_wrap (acc * x)) numbers init.

(** [static int64_t factorial(int n)]. For a negative [n] the constructor
    [std::vector<int> numbers(n)] is asked for more than [max_size()]
    elements and throws [std::length_error]: there is no result. *)
Definition factorial (n : Z) : option Z :=
  if decide (n < 0) then None
  else
    let numbers := iota (Z.to_nat n) 1 in
    Some (accumulate numbers 1).

(** * Properties of the event bus *)

Section BusFacts.

Context {args world exn : Type}.

#[local] Abbreviation completion := (completion world exn).
#[local] Abbreviation handler := (type_erased_handler args world exn).
#[local] Abbreviation event_bus := (event_bus args world exn).
#[local] Abbreviation bus_op := (bus_op args world exn).
#[local] Abbreviation bus_event := (bus_event args world exn).

Implicit Types (b : event_bus) (n : string) (id : Z) (h : handler)
  (a : args) (w : world) (v : list (Z * handler)).

(** *** The map accessors *)

Lemma count_present b n v :
  subscribers_ b !! n = Some v → count n (subscribers_ b) = 1%nat.
Proof. unfold count. by intros ->. Qed.

Lemma count_absent b n :
  subscribers_ b !! n = None → count n (subscribers_ b) = 0%nat.
Proof. unfold count. by intros ->. Qed.

Lemma index_present b n v :
  subscribers_ b !! n = Some v →
  index n (subscribers_ b) = (v, subscribers_ b).
Proof. unfold index. by intros ->. Qed.

Lemma index_absent b n :
  subscribers_ b !! n = None →
  index n (subscribers_ b) = ([], <[n := []]> (subscribers_ b)).
Proof. unfold index. by intros ->. Qed.

Lemma handlers_of_present b n v :
  subscribers_ b !! n = Some v → handlers_of b n = v.
Proof. unfold handlers_of. by intros ->. Qed.

Lemma handlers_of_absent b n :
  subscribers_ b !! n = None → handlers_of b n = [].
Proof. unfold handlers_of. by intros ->. Qed.

Lemma bus_eta b : {| subscribers_ := subscribers_ b; next_id_ := next_id_ b |} = b.
Proof. by destruct b. Qed.

(** *** [trigger] and [trigger_impl] *)

Lemma trigger_unfold n a b w :
  trigger n a b w = (b, invoke_each (handlers_of b n) a w).
Proof.
  unfold trigger, handlers_of, count, index.
  destruct (subscribers_ b !! n) as [v|]; simpl; [|done].
  by rewrite bus_eta.
Qed.

Lemma trigger_impl_unfold n a b w :
  trigger_impl n a b w = (b, invoke_each (handlers_of b n) a w).
Proof.
  unfold trigger_impl, handlers_of, count, index.
  destruct (subscribers_ b !! n) as [v|]; simpl; [|done].
  by rewrite bus_eta.
Qed.

(** *** [subscribe] *)

Lemma subscribe_id n h b : (subscribe n h b).1 = next_id_ b.
Proof. unfold subscribe. by destruct (index n (subscribers_ b)). Qed.

Lemma subscribe_next_id n h b :
  next_id_ (subscribe n h b).2 = int_wrap (next_id_ b + 1).
Proof. unfold subscribe. by destruct (index n (subscribers_ b)). Qed.

Lemma subscribe_lookup n h b n' :
  subscribers_ (subscribe n h b).2 !! n' =
    if decide (n = n') then Some (handlers_of b n ++ [(next_id_ b, h)])
    else subscribers_ b !! n'.
Proof.
  unfold subscribe, index, handlers_of.
  destruct (subscribers_ b !! n) as [v|] eqn:Hn; simpl;
    rewrite lookup_insert; case_decide; try done.
  by rewrite lookup_insert_ne.
Qed.

Lemma handlers_of_subscribe n h b n' :
  handlers_of (subscribe n h b).2 n' =
    if decide (n = n') then handlers_of b n ++ [(next_id_ b, h)]
    else handlers_of b n'.
Proof.
  unfold handlers_of at 1. rewrite subscribe_lookup. by case_decide.
Qed.

(** *** [unsubscribe] *)

Lemma unsubscribe_next_id n id b : next_id_ (unsubscribe n id b) = next_id_ b.
Proof.
  unfold unsubscribe, count, index.
  destruct (subscribers_ b !! n) as [v|]; simpl; [|done].
  by destruct (erase_remove_if _ v).
Qed.

Lemma unsubscribe_lookup n id b n' :
  subscribers_ (unsubscribe n id b) !! n' =
    if decide (n = n') then
      match subscribers_ b !! n with
      | Some v =>
          match erase_remove_if (λ pair, bool_decide (pair.1 = id)) v with
          | [] => None
          | v' => Some v'
          end
      | None => None
      end
    else subscribers_ b !! n'.
Proof.
  unfold unsubscribe, count, index.
  destruct (subscribers_ b !! n) as [v|] eqn:Hn; simpl.
  - destruct (erase_remove_if _ v) as [|p v'] eqn:Hv; simpl.
    + rewrite lookup_delete. case_decide; [done|].
      by rewrite lookup_insert_ne.
    + rewrite lookup_insert. by case_decide.
  - case_decide; by subst.
Qed.

Lemma handlers_of_unsubscribe n id b n' :
  handlers_of (unsubscribe n id b) n' =
    if decide (n = n') then
      erase_remove_if (λ pair, bool_decide (pair.1 = id)) (handlers_of b n)
    else handlers_of b n'.
Proof.
  unfold handlers_of. rewrite unsubscribe_lookup.
  case_decide; [|done].
  destruct (subscribers_ b !! n) as [v|]; simpl; [|done].
  by destruct (erase_remove_if _ v).
Qed.

Lemma erase_remove_if_none {A} (p : A → bool) (l : list A) :
  (∀ x, x ∈ l → p x = false) → erase_remove_if p l = l.
Proof.
  unfold erase_remove_if. induction l as [|x l IH]; intros Hl; simpl; [done|].
  rewrite (Hl x) by left. simpl. f_equal. apply IH.
  intros y Hy. apply Hl. by right.
Qed.

(** *** [clear] *)

Lemma handlers_of_clear b n : handlers_of (clear b) n = [].
Proof. unfold handlers_of, clear. simpl. by rewrite lookup_empty. Qed.

(** *** The registry invariant *)

Lemma registry_inv_lookup b :
  registry_inv b ↔ ∀ n, subscribers_ b !! n ≠ Some [].
Proof.
  unfold registry_inv, handlers_of. split.
  - intros Hinv n Hn. destruct (Hinv n) as [H1 _].
    rewrite Hn in H1. simpl in H1. apply H1; eauto.
  - intros Hne n. specialize (Hne n).
    destruct (subscribers_ b !! n) as [[|p v]|]; simpl.
    + done.
    + split; [done | eauto].
    + split; [by intros [? ?] | done].
Qed.

Lemma registry_inv_new : registry_inv (@new_bus args world exn).
Proof.
  apply registry_inv_lookup. intros n. unfold new_bus. simpl.
  by rewrite lookup_empty.
Qed.

Lemma registry_inv_subscribe n h b :
  registry_inv b → registry_inv (subscribe n h b).2.
Proof.
  rewrite !registry_inv_lookup. intros Hinv n'.
  rewrite subscribe_lookup. case_decide; [|done].
  intros [= Heq]. by destruct (handlers_of b n).
Qed.

Lemma registry_inv_unsubscribe n id b :
  registry_inv b → registry_inv (unsubscribe n id b).
Proof.
  rewrite !registry_inv_lookup. intros Hinv n'.
  rewrite unsubscribe_lookup. case_decide; [|done].
  destruct (subscribers_ b !! n) as [v|]; [|done].
  by destruct (erase_remove_if _ v).
Qed.

Lemma registry_inv_clear b : registry_inv (clear b).
Proof.
  apply registry_inv_lookup. intros n. unfold clear. simpl.
  by rewrite lookup_empty.
Qed.

Lemma registry_inv_run_op (o : bus_op) (s : event_bus * world) :
  registry_inv s.1 → registry_inv (run_op o s).1.1.
Proof.
  destruct s as [b w]. destruct o as [n h|n id|n a|]; simpl; intros Hinv.
  - pose proof (registry_inv_subscribe n h b Hinv) as H.
    by destruct (subscribe n h b).
  - by apply registry_inv_unsubscribe.
  - rewrite trigger_unfold. by destruct (invoke_each _ _ _).
  - apply registry_inv_clear.
Qed.

Lemma registry_inv_run_ops (os : list bus_op) (s : event_bus * world) :
  registry_inv s.1 → registry_inv (run_ops os s).1.1.
Proof.
  revert s. induction os as [|o os IH]; intros s Hinv; simpl; [done|].
  pose proof (registry_inv_run_op o s Hinv) as H1.
  destruct (run_op o s) as [s' e]. specialize (IH s' H1).
  by destruct (run_ops os s').
Qed.

End BusFacts.

(** ** Frame, invariant and no-op properties *)

(** C9: [trigger] and [trigger_impl] leave the bus as it was, whatever the
    state, the event name and the arguments: the registry mapping and the
    id counter after the call are those before the call. (Handlers act on
    the world only, not on the bus.) *)
Theorem trigger_leaves_bus_unchanged {args world exn : Type}
    (b : event_bus args world exn) (event_name : string) (a : args)
    (w : world) :
  (trigger event_name a b w).1 = b ∧
  subscribers_ (trigger event_name a b w).1 = subscribers_ b ∧
  next_id_ (trigger event_name a b w).1 = next_id_ b ∧
  (trigger_impl event_name a b w).1 = b ∧
  subscribers_ (trigger_impl event_name a b w).1 = subscribers_ b ∧
  next_id_ (trigger_impl event_name a b w).1 = next_id_ b.
Proof.
  rewrite trigger_unfold, trigger_impl_unfold. simpl. tauto.
Qed.

(** C8: the registry invariant (a name is present if and only if its
    handler list is not empty) holds of a new bus and is preserved by
    subscribe, unsubscribe, trigger and clear; and the unsubscribe that
    removes the last handlers of a name removes the entry of the name in
    the same call. *)
Theorem registry_invariant_preserved {args world exn : Type} :
  registry_inv (@new_bus args world exn) ∧
  ∀ b : event_bus args world exn, registry_inv b →
    (∀ n h, registry_inv (subscribe n h b).2) ∧
    (∀ n id, registry_inv (unsubscribe n id b)) ∧
    (∀ n a w, registry_inv (trigger n a b w).1) ∧
    registry_inv (clear b) ∧
    (∀ n id,
       erase_remove_if (λ pair, bool_decide (pair.1 = id)) (handlers_of b n)
         = [] →
       subscribers_ (unsubscribe n id b) !! n = None).
Proof.
  split; [apply registry_inv_new|].
  intros b Hinv.
  split; [intros n h; by apply registry_inv_subscribe|].
  split; [intros n id; by apply registry_inv_unsubscribe|].
  split; [intros n a w; by rewrite trigger_unfold|].
  split; [apply registry_inv_clear|].
  intros n id Hlast. rewrite unsubscribe_lookup.
  case_decide; [|done]. unfold handlers_of in Hlast.
  destruct (subscribers_ b !! n) as [v|]; simpl in Hlast; [|done].
  by rewrite Hlast.
Qed.

Lemma registry_invariant_preserved_witness :
  registry_inv Sample.one_subscriber ∧
  registry_inv (unsubscribe "OnCalc" 0 Sample.one_subscriber) ∧
  subscribers_ (unsubscribe "OnCalc" 0 Sample.one_subscriber) !! "OnCalc"
    = None.
Proof.
  pose proof (@registry_invariant_preserved Z Sample.log string)
    as [Hnew Hstep].
  pose proof (Hstep new_bus Hnew) as (Hsub & _).
  specialize (Hsub "OnCalc" (Sample.logger "calc")).
  pose proof (Hstep Sample.one_subscriber Hsub) as (_ & Hun & _ & _ & Hlast).
  split; [exact Hsub|]. split; [apply Hun|].
  apply Hlast. reflexivity.
Defined.

Lemma unsubscribe_absent {args world exn : Type}
    (b : event_bus args world exn) (n : string) (id : Z) :
  subscribers_ b !! n = None → unsubscribe n id b = b.
Proof. intros Hn. unfold unsubscribe. by rewrite (count_absent b n Hn). Qed.

Lemma unsubscribe_unknown_id {args world exn : Type}
    (b : event_bus args world exn) (n : string) (id : Z) :
  registry_inv b →
  (∀ p, p ∈ handlers_of b n → p.1 ≠ id) →
  unsubscribe n id b = b.
Proof.
  intros Hinv Hid.
  destruct (subscribers_ b !! n) as [v|] eqn:Hn;
    [|by apply unsubscribe_absent].
  unfold unsubscribe.
  rewrite (count_present b n v Hn), (index_present b n v Hn).
  rewrite (handlers_of_present b n v Hn) in Hid.
  rewrite erase_remove_if_none.
  - destruct v as [|p v].
    + by destruct (proj1 (registry_inv_lookup b) Hinv n).
    + rewrite insert_id by done. apply bus_eta.
  - intros p Hp. apply bool_decide_eq_false. by apply Hid.
Qed.

(** C7: on a bus in any state its operations can produce, [trigger] on a
    name without subscribers, [unsubscribe] of a name that is not in the
    registry, and [unsubscribe] of an id that is not registered for the
    name are no-ops: the call returns normally, no handler is called, and
    the bus (and for [trigger] the world) is as before. *)
Theorem unknown_name_or_id_is_noop {args world exn : Type}
    (ops : list (bus_op args world exn)) (w0 : world) :
  let b := (run_ops ops (new_bus, w0)).1.1 in
  (∀ n a w, handlers_of b n = [] → trigger n a b w = (b, ([], Returns w))) ∧
  (∀ n id, subscribers_ b !! n = None → unsubscribe n id b = b) ∧
  (∀ n id, (∀ p, p ∈ handlers_of b n → p.1 ≠ id) → unsubscribe n id b = b).
Proof.
  intros b.
  assert (registry_inv b) as Hinv
    by (apply registry_inv_run_ops, registry_inv_new).
  split; [|split].
  - intros n a w Hn. by rewrite trigger_unfold, Hn.
  - intros n id. apply unsubscribe_absent.
  - intros n id. by apply unsubscribe_unknown_id.
Qed.

Lemma unknown_name_or_id_is_noop_witness :
  let b : event_bus Z Sample.log string :=
    (run_ops [OpSubscribe "OnCalc" (Sample.logger "calc")] (new_bus, [])).1.1 in
  handlers_of b "OnMessage" = [] ∧
  trigger "OnMessage" 4 b [] = (b, ([], Returns [])) ∧
  subscribers_ b !! "OnMessage" = None ∧
  unsubscribe "OnMessage" 0 b = b ∧
  (∀ p, p ∈ handlers_of b "OnCalc" → p.1 ≠ 7) ∧
  unsubscribe "OnCalc" 7 b = b.
Proof.
  intros b.
  pose proof (unknown_name_or_id_is_noop
    [OpSubscribe "OnCalc" (Sample.logger "calc")] ([] : Sample.log))
    as (Htrig & Habs & Hid).
  assert (handlers_of b "OnMessage" = []) as H1 by reflexivity.
  assert (subscribers_ b !! "OnMessage" = None) as H2 by reflexivity.
  assert (∀ p, p ∈ handlers_of b "OnCalc" → p.1 ≠ 7) as H3.
  { intros p Hp. change (handlers_of b "OnCalc")
      with [(0, Sample.logger "calc")] in Hp.
    apply list_elem_of_singleton in Hp. by subst p. }
  split; [exact H1|]. split; [exact (Htrig "OnMessage" 4 [] H1)|].
  split; [exact H2|]. split; [exact (Habs "OnMessage" 0 H2)|].
  split; [exact H3|]. exact (Hid "OnCalc" 7 H3).
Defined.

(** ** Subscription ids *)

Lemma int_wrap_id z : INT_MIN ≤ z ≤ INT_MAX → int_wrap z = z.
Proof.
  unfold INT_MIN, INT_MAX, int_wrap. intros Hz.
  rewrite Z.mod_small; lia.
Qed.

Lemma int_wrap_overflow : int_wrap (INT_MAX + 1) = INT_MIN.
Proof. reflexivity. Qed.

Section Ids.

Context {args world exn : Type}.

#[local] Abbreviation event_bus := (event_bus args world exn).
#[local] Abbreviation bus_op := (bus_op args world exn).
#[local] Abbreviation bus_event := (bus_event args world exn).

Lemma run_ops_app (os1 os2 : list bus_op) (s : event_bus * world) :
  run_ops (os1 ++ os2) s =
    ((run_ops os2 (run_ops os1 s).1).1,
     (run_ops os1 s).2 ++ (run_ops os2 (run_ops os1 s).1).2).
Proof.
  revert s. induction os1 as [|o os1 IH]; intros s; simpl.
  - by destruct (run_ops os2 s).
  - destruct (run_op o s) as [s' e]. rewrite IH.
    destruct (run_ops os1 s') as [s1 es1]. simpl.
    by destruct (run_ops os2 s1).
Qed.

Lemma ids_returned_cons (e : bus_event) (es : list bus_event) :
  ids_returned (e :: es) = ids_returned [e] ++ ids_returned es.
Proof. by destruct e. Qed.

Lemma run_op_next_id (o : bus_op) (s : event_bus * world) :
  next_id_ (run_op o s).1.1 =
    if is_subscribe o then int_wrap (next_id_ s.1 + 1) else next_id_ s.1.
Proof.
  destruct s as [b w]. destruct o as [n h|n id|n a|]; simpl.
  - pose proof (subscribe_next_id n h b) as H.
    by destruct (subscribe n h b).
  - apply unsubscribe_next_id.
  - rewrite trigger_unfold. by destruct (invoke_each _ _ _).
  - done.
Qed.

Lemma run_op_id (o : bus_op) (s : event_bus * world) :
  ids_returned [(run_op o s).2] =
    if is_subscribe o then [next_id_ s.1] else [].
Proof.
  destruct s as [b w]. destruct o as [n h|n id|n a|]; simpl; try done.
  - pose proof (subscribe_id n h b) as H.
    destruct (subscribe n h b); simpl in *. by subst.
  - rewrite trigger_unfold. by destruct (invoke_each _ _ _).
Qed.

(** While the counter stays within [int], the ids handed out are the
    consecutive integers from its current value. *)
Lemma ids_returned_from (os : list bus_op) (s : event_bus * world) :
  let k := next_id_ s.1 in
  let n := Z.of_nat (subscribe_calls os) in
  INT_MIN ≤ k ≤ INT_MAX →
  n = 0 ∨ (0 ≤ k ∧ k + n ≤ INT_MAX + 1) →
  ids_returned (run_ops os s).2 = seqZ k n ∧
  next_id_ (run_ops os s).1.1 = int_wrap (k + n).
Proof.
  revert s. unfold subscribe_calls.
  induction os as [|o os IH]; intros s; simpl.
  - intros Hk _. split; [done|]. rewrite Z.add_0_r. by rewrite int_wrap_id.
  - intros Hk Hn.
    pose proof (run_op_next_id o s) as Hnext.
    pose proof (run_op_id o s) as Hid.
    destruct (run_op o s) as [s' e]. cbn [fst snd] in Hnext, Hid.
    specialize (IH s').
    destruct (run_ops os s') as [s'' es] eqn:Hrun. cbn [fst snd] in IH |- *.
    rewrite (ids_returned_cons e es).
    rewrite Hid. destruct (is_subscribe o); simpl in Hn |- *.
    + assert (INT_MIN ≤ int_wrap (next_id_ s.1 + 1) ≤ INT_MAX) as Hrange.
      { unfold int_wrap, INT_MIN, INT_MAX.
        pose proof (Z.mod_pos_bound (next_id_ s.1 + 1 + 2147483648)
                      4294967296). lia. }
      destruct Hn as [Hn | [Hk0 Hn]]; [lia|].
      rewrite Hnext in IH. destruct IH as [IH1 IH2]; [done | |].
      * destruct (decide (length (List.filter is_subscribe os) = 0%nat))
          as [Hz|Hz]; [left; lia | right].
        rewrite int_wrap_id by (unfold INT_MIN, INT_MAX in *; lia).
        unfold INT_MAX in *. lia.
      * rewrite IH1, IH2. split.
        -- rewrite (seqZ_cons (next_id_ s.1)) by lia. f_equal.
           destruct (decide (length (List.filter is_subscribe os) = 0%nat))
             as [Hz|Hz].
           ++ rewrite Hz. change (Z.pred (Z.of_nat 1)) with 0.
              change (Z.of_nat 0) with 0. by rewrite !seqZ_nil.
           ++ rewrite int_wrap_id by (unfold INT_MIN, INT_MAX in *; lia).
              f_equal; lia.
        -- destruct (decide (length (List.filter is_subscribe os) = 0%nat))
             as [Hz|Hz].
           ++ rewrite Hz. simpl. rewrite Z.add_0_r, int_wrap_id by done.
              done.
           ++ rewrite (int_wrap_id (next_id_ s.1 + 1))
                by (unfold INT_MIN, INT_MAX in *; lia).
              f_equal; lia.
    + rewrite Hnext in IH. by apply IH.
Qed.

End Ids.

(** C4 (as amended): on a bus that has received fewer than 2^31
    [subscribe] calls, whatever [unsubscribe], [trigger] and [clear] calls
    came in between, the counter has not overflowed and the ids returned
    are 0, 1, 2, ... in call order: every [subscribe] returns an id
    strictly greater than every id returned before, so none is used
    twice. *)
Theorem subscription_ids_increase {args world exn : Type}
    (ops : list (bus_op args world exn)) (w0 : world) :
  Z.of_nat (subscribe_calls ops) ≤ INT_MAX →
  let ids := ids_returned (run_ops ops (new_bus, w0)).2 in
  ids = seqZ 0 (Z.of_nat (subscribe_calls ops)) ∧
  next_id_ (run_ops ops (new_bus, w0)).1.1 = Z.of_nat (subscribe_calls ops) ∧
  ∀ (i j : nat) (x y : Z),
    (i < j)%nat → ids !! i = Some x → ids !! j = Some y → x < y.
Proof.
  intros Hcalls ids.
  destruct (ids_returned_from ops (new_bus, w0)) as [Hids Hnext].
  - unfold INT_MIN, INT_MAX. simpl. lia.
  - right. unfold INT_MAX in *. simpl. lia.
  - simpl in Hids, Hnext. fold ids in Hids. split; [exact Hids|]. split.
    + rewrite Hnext. apply int_wrap_id. unfold INT_MIN, INT_MAX in *. lia.
    + intros i j x y Hij. rewrite Hids.
      intros [-> _]%lookup_seqZ [-> _]%lookup_seqZ. lia.
Qed.

Lemma subscription_ids_increase_witness :
  let ops : list (bus_op Z Sample.log string) :=
    [OpSubscribe "OnCalc" (Sample.logger "calc"); OpUnsubscribe "OnCalc" 0;
     OpClear; OpSubscribe "OnCalc" (Sample.logger "again")] in
  let ids := ids_returned (run_ops ops (new_bus, [])).2 in
  Z.of_nat (subscribe_calls ops) ≤ INT_MAX ∧
  ids = [0; 1] ∧
  next_id_ (run_ops ops (new_bus, [])).1.1 = 2 ∧
  ∀ (i j : nat) (x y : Z),
    (i < j)%nat → ids !! i = Some x → ids !! j = Some y → x < y.
Proof.
  intros ops ids.
  assert (Z.of_nat (subscribe_calls ops) ≤ INT_MAX) as H
    by (unfold ops, subscribe_calls, INT_MAX; simpl; lia).
  split; [exact H|].
  destruct (subscription_ids_increase ops ([] : Sample.log) H)
    as (H1 & H2 & H3).
  split; [exact H1|]. split; [exact H2 | exact H3].
Defined.

Lemma subscribe_calls_repeat {args world exn : Type}
    (n : string) (h : type_erased_handler args world exn) (k : nat) :
  subscribe_calls (repeat (OpSubscribe n h) k) = k.
Proof.
  unfold subscribe_calls. induction k as [|k IH]; [done|].
  change (repeat (OpSubscribe n h) (S k))
    with (OpSubscribe n h :: repeat (OpSubscribe n h) k).
  change (List.filter is_subscribe (OpSubscribe n h :: repeat (OpSubscribe n h) k))
    with (OpSubscribe n h :: List.filter is_subscribe (repeat (OpSubscribe n h) k)).
  rewrite length_cons. by rewrite IH.
Qed.

(** C4, as stated, fails once the [int] counter has run through its
    positive values: the call after the 2^31 first ones returns [INT_MIN],
    which is below the 0 that the first call returned. *)
Lemma subscription_ids_wrap_counterexample :
  let ids := ids_returned (run_ops Sample.many_subscribes (new_bus, [])).2 in
  ids !! 0%nat = Some 0 ∧
  ids !! Z.to_nat 2147483648 = Some (-2147483648) ∧
  ¬ (∀ (i j : nat) (x y : Z),
       (i < j)%nat → ids !! i = Some x → ids !! j = Some y → x < y).
Proof.
  unfold Sample.many_subscribes.
  generalize (Sample.logger "calc"). intros h.
  remember (Z.to_nat 2147483648) as N eqn:HN.
  assert (Z.of_nat N = 2147483648) as HN' by (subst N; apply Z2Nat.id; lia).
  assert (0 < N)%nat as Hpos by lia.
  clear HN.
  rewrite run_ops_app. cbn [fst snd].
  destruct (ids_returned_from (repeat (OpSubscribe "OnCalc" h) N)
              ((new_bus, []) : event_bus Z Sample.log string * Sample.log))
    as [Hids Hnext].
  { unfold INT_MIN, INT_MAX. simpl. lia. }
  { right. rewrite subscribe_calls_repeat. unfold INT_MAX. simpl. lia. }
  rewrite subscribe_calls_repeat, HN' in Hids, Hnext.
  cbn [fst snd next_id_ new_bus] in Hids, Hnext.
  change (int_wrap (0 + 2147483648)) with (-2147483648) in Hnext.
  destruct (run_ops (repeat (OpSubscribe "OnCalc" h) N) (new_bus, []))
    as [[b w] es] eqn:Hrun.
  cbn [fst snd] in Hids, Hnext |- *.
  pose proof (run_op_id (OpSubscribe "OnCalc" h) (b, w)) as Hlast.
  cbn [fst snd is_subscribe] in Hlast. rewrite Hnext in Hlast.
  change (run_ops [OpSubscribe "OnCalc" h] (b, w))
    with (let '(s', e) := run_op (OpSubscribe "OnCalc" h) (b, w) in
          (s', [e])).
  destruct (run_op (OpSubscribe "OnCalc" h) (b, w)) as [s' e].
  cbn [fst snd] in Hlast |- *.
  unfold ids_returned in *. rewrite omap_app, Hlast, Hids.
  assert (length (seqZ 0 2147483648) = N) as Hlen
    by (rewrite length_seqZ; lia).
  assert ((seqZ 0 2147483648 ++ [-2147483648]) !! 0%nat = Some 0) as H0.
  { rewrite lookup_app_l by lia. apply lookup_seqZ. lia. }
  assert ((seqZ 0 2147483648 ++ [-2147483648]) !! N = Some (-2147483648))
    as H1 by (by apply list_lookup_middle).
  split; [exact H0|]. split; [exact H1|].
  intros Hmono. specialize (Hmono 0%nat N 0 (-2147483648) Hpos H0 H1). lia.
Qed.

(** ** What [trigger] calls *)

Section Dispatch.

Context {args world exn : Type}.

#[local] Abbreviation completion := (completion world exn).
#[local] Abbreviation handler := (type_erased_handler args world exn).
#[local] Abbreviation event_bus := (event_bus args world exn).
#[local] Abbreviation bus_op := (bus_op args world exn).
#[local] Abbreviation bus_event := (bus_event args world exn).

Implicit Types (b : event_bus) (n : string) (id : Z) (h : handler)
  (a : args) (w : world) (v : list (Z * handler)).

(** *** The dispatch loop *)

Lemma invoke_each_cons_returns id h v a w w' :
  invoke h a w = Returns w' →
  invoke_each ((id, h) :: v) a w =
    ((h, a) :: (invoke_each v a w').1, (invoke_each v a w').2).
Proof. simpl. intros ->. by destruct (invoke_each v a w'). Qed.

Lemma invoke_each_cons_throws id h v a w e w' :
  invoke h a w = Throws e w' →
  invoke_each ((id, h) :: v) a w = ([(h, a)], Throws e w').
Proof. simpl. by intros ->. Qed.

Lemma invoke_each_prefix v a w :
  (invoke_each v a w).1 `prefix_of` calls_of v a.
Proof.
  revert w. induction v as [|[id h] v IH]; intros w.
  - done.
  - destruct (invoke h a w) as [w'|e w'] eqn:Hh.
    + rewrite (invoke_each_cons_returns _ _ _ _ _ _ Hh).
      apply prefix_cons, IH.
    + rewrite (invoke_each_cons_throws _ _ _ _ _ _ _ Hh).
      apply prefix_cons, prefix_nil.
Qed.

Lemma invoke_each_returns v a w w' :
  (invoke_each v a w).2 = Returns w' →
  (invoke_each v a w).1 = calls_of v a.
Proof.
  revert w. induction v as [|[id h] v IH]; intros w.
  - done.
  - destruct (invoke h a w) as [w1|e w1] eqn:Hh.
    + rewrite (invoke_each_cons_returns _ _ _ _ _ _ Hh). simpl.
      intros Hr. f_equal. by apply IH.
    + by rewrite (invoke_each_cons_throws _ _ _ _ _ _ _ Hh).
Qed.

Lemma invoke_each_app_throws v1 id h v2 a w w1 e w' :
  invoke_each v1 a w = (calls_of v1 a, Returns w1) →
  invoke h a w1 = Throws e w' →
  invoke_each (v1 ++ (id, h) :: v2) a w =
    (calls_of (v1 ++ [(id, h)]) a, Throws e w').
Proof.
  revert w. induction v1 as [|[id1 h1] v1 IH]; intros w.
  - simpl. intros [= ->] Hh. by rewrite Hh.
  - destruct (invoke h1 a w) as [w2|e2 w2] eqn:Hh1.
    + rewrite (invoke_each_cons_returns _ _ _ _ _ _ Hh1).
      intros [= Hc Hr] Hh. rewrite <- app_comm_cons.
      rewrite (invoke_each_cons_returns _ _ _ _ _ _ Hh1).
      rewrite (IH w2); [done | | done].
      by destruct (invoke_each v1 a w2); simpl in *; subst.
    + by rewrite (invoke_each_cons_throws _ _ _ _ _ _ _ Hh1).
Qed.

Lemma invoke_each_throws v a w e w' :
  (invoke_each v a w).2 = Throws e w' →
  ∃ v1 p v2 w1,
    v = v1 ++ p :: v2 ∧
    invoke_each v1 a w = (calls_of v1 a, Returns w1) ∧
    invoke p.2 a w1 = Throws e w' ∧
    (invoke_each v a w).1 = calls_of (v1 ++ [p]) a.
Proof.
  revert w. induction v as [|[id h] v IH]; intros w.
  - done.
  - destruct (invoke h a w) as [w1|e1 w1] eqn:Hh.
    + rewrite (invoke_each_cons_returns _ _ _ _ _ _ Hh). simpl.
      intros Hr. destruct (IH w1 Hr) as (v1 & p & v2 & w2 & -> & H1 & H2 & H3).
      exists ((id, h) :: v1), p, v2, w2. split; [done|]. split; [|split].
      * rewrite (invoke_each_cons_returns _ _ _ _ _ _ Hh). by rewrite H1.
      * done.
      * by rewrite H3.
    + rewrite (invoke_each_cons_throws _ _ _ _ _ _ _ Hh). simpl.
      intros [= -> ->]. by exists [], (id, h), v, w.
Qed.

(** *** The registry against the history of calls *)

Lemma filter_all {A} (f : A → bool) (l : list A) :
  (∀ x, f x = true) → List.filter f l = l.
Proof. intros Hf. induction l; simpl; [done|]. by rewrite Hf, IHl. Qed.

Lemma filter_none {A} (f : A → bool) (l : list A) :
  (∀ x, f x = false) → List.filter f l = [].
Proof. intros Hf. induction l; simpl; [done|]. by rewrite Hf. Qed.

Lemma filter_twice {A} (f g : A → bool) (l : list A) :
  List.filter f (List.filter g l) = List.filter (λ x, g x && f x) l.
Proof.
  induction l as [|x l IH]; simpl; [done|].
  destruct (g x); simpl; [|done]. destruct (f x); by rewrite IH.
Qed.

Lemma filter_pointwise {A} (f g : A → bool) (l : list A) :
  (∀ x, f x = g x) → List.filter f l = List.filter g l.
Proof. intros Hfg. induction l; simpl; [done|]. by rewrite Hfg, IHl. Qed.

Lemma run_op_subscribe n h b w :
  run_op (OpSubscribe n h) (b, w) =
    (((subscribe n h b).2, w), EvSubscribed n h (next_id_ b)).
Proof.
  simpl. pose proof (subscribe_id n h b) as H.
  destruct (subscribe n h b); simpl in *. by subst.
Qed.

Lemma run_op_trigger n a b w :
  run_op (OpTrigger n a) (b, w) =
    ((b, world_of (invoke_each (handlers_of b n) a w).2), EvTriggered n a).
Proof. simpl. rewrite trigger_unfold. by destruct (invoke_each _ _ _). Qed.

(** The handlers listed for a name after some calls: those listed before
    that no call cancelled, then the subscriptions the calls made and did
    not cancel. *)
Lemma handlers_of_run_ops (os : list bus_op) (s : event_bus * world) n :
  handlers_of (run_ops os s).1.1 n =
    List.filter (λ p, negb (existsb (cancels n p.1) (run_ops os s).2))
      (handlers_of s.1 n)
    ++ currently_subscribed n (run_ops os s).2.
Proof.
  revert s. induction os as [|o os IH]; intros [b w].
  - simpl. by rewrite filter_all, app_nil_r.
  - cbn [run_ops].
    assert (∃ b1 w1 e, run_op o (b, w) = ((b1, w1), e) ∧
      handlers_of (run_ops os (b1, w1)).1.1 n =
        List.filter (λ p, negb (existsb (cancels n p.1)
                                  (e :: (run_ops os (b1, w1)).2)))
          (handlers_of b n)
        ++ currently_subscribed n (e :: (run_ops os (b1, w1)).2))
      as (b1 & w1 & e & -> & Hgoal).
    2: { by destruct (run_ops os (b1, w1)). }
    destruct o as [n' h|n' id|n' a|].
    + eexists _, _, _. split; [apply run_op_subscribe|].
      rewrite IH. cbn [fst snd]. rewrite handlers_of_subscribe.
      cbn [existsb cancels currently_subscribed orb].
      case_decide as Hn.
      * subst n'. rewrite bool_decide_eq_true_2 by done. cbn [andb].
        rewrite List.filter_app, <- app_assoc. f_equal. simpl.
        by destruct (existsb _ _).
      * rewrite bool_decide_eq_false_2 by done. reflexivity.
    + eexists _, _, _. split; [reflexivity|].
      rewrite IH. cbn [fst snd]. rewrite handlers_of_unsubscribe.
      cbn [existsb cancels currently_subscribed]. f_equal.
      case_decide as Hn.
      * subst n'. unfold erase_remove_if. rewrite filter_twice.
        apply filter_pointwise. intros [i h]. simpl.
        rewrite (bool_decide_eq_true_2 (n = n)) by done. simpl.
        rewrite negb_orb. f_equal.
        rewrite (bool_decide_ext (i = id) (id = i)); [done | naive_solver].
      * apply filter_pointwise. intros [i h].
        by rewrite bool_decide_eq_false_2.
    + eexists _, _, _. split; [apply run_op_trigger|].
      rewrite IH. cbn [fst snd]. done.
    + eexists _, _, _. split; [reflexivity|].
      rewrite IH. cbn [fst snd]. rewrite handlers_of_clear.
      cbn [existsb cancels currently_subscribed orb negb List.filter app].
      by rewrite filter_none.
Qed.

Lemma handlers_of_new n : handlers_of (@new_bus args world exn) n = [].
Proof. unfold handlers_of, new_bus. simpl. by rewrite lookup_empty. Qed.

End Dispatch.




(** * Properties of the event loop *)

Section LoopFacts.

Context {args world exn : Type}.

#[local] Abbreviation event_bus := (event_bus args world exn).
#[local] Abbreviation task := (task args).
#[local] Abbreviation system := (system args world exn).
#[local] Abbreviation outcome := (outcome args world exn).
#[local] Abbreviation label := (label args world exn).

Implicit Types (s : system) (l : label) (ls : list label) (t : task).

(** *** Schedules *)

Lemma run_app ls1 ls2 s :
  run (ls1 ++ ls2) s =
    match run ls1 s with
    | Next s1 => run ls2 s1
    | Blocked => Blocked
    | Terminate w => Terminate w
    end.
Proof.
  revert s. induction ls1 as [|l ls1 IH]; intros s; simpl; [done|].
  by destruct (step l s).
Qed.

Lemma run_app_next ls1 ls2 s s' :
  run (ls1 ++ ls2) s = Next s' →
  ∃ s1, run ls1 s = Next s1 ∧ run ls2 s1 = Next s'.
Proof.
  rewrite run_app. destruct (run ls1 s) as [s1| |]; [eauto|done..].
Qed.

Lemma run_terminate ls1 ls2 s w :
  run ls1 s = Terminate w → run (ls1 ++ ls2) s = Terminate w.
Proof. rewrite run_app. by intros ->. Qed.

(** A property that every step keeps is kept by every schedule. *)
Lemma run_preserves (P : system → Prop) :
  (∀ l s s', P s → step l s = Next s' → P s') →
  ∀ ls s s', P s → run ls s = Next s' → P s'.
Proof.
  intros Hstep. induction ls as [|l ls IH]; intros s s' HP; simpl.
  - by intros [= <-].
  - destruct (step l s) as [s1| |] eqn:Hl; [|done..].
    apply IH. by eapply Hstep.
Qed.

(** *** The steps, field by field *)

Lemma worker_step_holding s t :
  event_loop_thread_ (loop s) = Holding t →
  process_event_loop s =
    match (invoke_each
             (handlers_of (bus_at (buses s) (task_bus t)) (task_event t))
             (task_args t) (sys_world s)).2 with
    | Returns w' =>
        Next {| loop := {| async_event_queue_ := async_event_queue_ (loop s);
                           stop_flag_ := stop_flag_ (loop s);
                           event_loop_thread_ := AtNotify |};
                buses := <[task_bus t := bus_at (buses s) (task_bus t)]>
                           (buses s);
                sys_world := w';
                enqueued := enqueued s;
                completed := completed s ++ [t] |}
    | Throws _ w' => Terminate w'
    end.
Proof.
  unfold process_event_loop. intros ->. rewrite trigger_impl_unfold.
  by destruct (invoke_each _ _ _).
Qed.

Lemma call_bus_fields r o s :
  ∃ s', call_bus r o s = Next s' ∧ loop s' = loop s ∧
        enqueued s' = enqueued s ∧ completed s' = completed s.
Proof.
  unfold call_bus. destruct (run_op o _) as [[b' w'] e]. eauto.
Qed.

(** Only the worker changes the list of completed tasks, and only by
    finishing the task it holds. *)
Lemma step_completed l s s' :
  step l s = Next s' →
  completed s' = completed s ∨
  (l = Worker ∧ ∃ t, event_loop_thread_ (loop s) = Holding t ∧
     completed s' = completed s ++ [t]).
Proof.
  destruct l as [r n a| | | |r o|]; simpl.
  - intros [= <-]. by left.
  - unfold wait_until_finished.
    destruct (async_event_queue_ (loop s)); [|done]. intros [= <-]. by left.
  - intros [= <-]. by left.
  - unfold join. destruct (event_loop_thread_ (loop s)); try done.
    intros [= <-]. by left.
  - destruct (call_bus_fields r o s) as (s1 & -> & _ & _ & Hc).
    intros [= <-]. by left.
  - destruct (event_loop_thread_ (loop s)) as [|t| |] eqn:Hpc.
    + unfold process_event_loop. rewrite Hpc.
      destruct (async_event_queue_ (loop s)); [destruct (stop_flag_ _)|];
        try done; intros [= <-]; by left.
    + rewrite (worker_step_holding s t Hpc).
      destruct (invoke_each _ _ _).2; [|done]. intros [= <-].
      right. eauto.
    + unfold process_event_loop. rewrite Hpc. intros [= <-]. by left.
    + unfold process_event_loop. by rewrite Hpc.
Qed.

(** The steps keep [loop_inv]. *)
Lemma step_loop_inv l s s' : loop_inv s → step l s = Next s' → loop_inv s'.
Proof.
  unfold loop_inv, in_flight. intros [Henq Hstop].
  destruct l as [r n a| | | |r o|]; simpl.
  - intros [= <-]. simpl. split; [|done].
    rewrite Henq. by rewrite <- !app_assoc.
  - unfold wait_until_finished.
    destruct (async_event_queue_ (loop s)) eqn:Hq; [|done].
    intros [= <-]. by rewrite Hq.
  - intros [= <-]. simpl. done.
  - unfold join. destruct (event_loop_thread_ (loop s)) eqn:Hpc; try done.
    intros [= <-]. by rewrite Hpc.
  - destruct (call_bus_fields r o s) as (s1 & -> & Hl & He & Hc).
    intros [= <-]. by rewrite Hl, He, Hc.
  - destruct (event_loop_thread_ (loop s)) as [|t| |] eqn:Hpc.
    + unfold process_event_loop. rewrite Hpc.
      destruct (async_event_queue_ (loop s)) as [|front rest];
        [destruct (stop_flag_ _) eqn:Hf|]; try done; intros [= <-]; simpl.
      * done.
      * by rewrite Henq.
    + rewrite (worker_step_holding s t Hpc).
      destruct (invoke_each _ _ _).2; [|done]. intros [= <-]. simpl.
      split; [|done]. rewrite Henq. by rewrite <- !app_assoc.
    + unfold process_event_loop. rewrite Hpc. intros [= <-]. simpl.
      by rewrite Henq.
    + unfold process_event_loop. by rewrite Hpc.
Qed.

Lemma init_loop_inv (h : gmap bus_ref event_bus) (w : world) :
  loop_inv (init h w).
Proof. by split. Qed.

Lemma reachable_loop_inv (h : gmap bus_ref event_bus) (w : world) ls s :
  run ls (init h w) = Next s → loop_inv s.
Proof. apply (run_preserves loop_inv step_loop_inv), init_loop_inv. Qed.

(** The tasks ever enqueued are those of the schedule's [enqueue_event]
    calls. *)
Lemma step_enqueued l s s' :
  step l s = Next s' → enqueued s' = enqueued s ++ tasks_of [l].
Proof.
  destruct l as [r n a| | | |r o|]; simpl.
  - by intros [= <-].
  - unfold wait_until_finished.
    destruct (async_event_queue_ (loop s)); [|done].
    intros [= <-]. by rewrite app_nil_r.
  - intros [= <-]. by rewrite app_nil_r.
  - unfold join. destruct (event_loop_thread_ (loop s)); try done.
    intros [= <-]. by rewrite app_nil_r.
  - destruct (call_bus_fields r o s) as (s1 & -> & _ & He & _).
    intros [= <-]. by rewrite app_nil_r.
  - rewrite app_nil_r.
    destruct (event_loop_thread_ (loop s)) as [|t| |] eqn:Hpc.
    + unfold process_event_loop. rewrite Hpc.
      destruct (async_event_queue_ (loop s)); [destruct (stop_flag_ _)|];
        try done; by intros [= <-].
    + rewrite (worker_step_holding s t Hpc).
      destruct (invoke_each _ _ _).2; [|done]. by intros [= <-].
    + unfold process_event_loop. rewrite Hpc. by intros [= <-].
    + unfold process_event_loop. by rewrite Hpc.
Qed.

Lemma run_enqueued ls s s' :
  run ls s = Next s' → enqueued s' = enqueued s ++ tasks_of ls.
Proof.
  revert s. induction ls as [|l ls IH]; intros s; simpl.
  - intros [= <-]. by rewrite app_nil_r.
  - destruct (step l s) as [s1| |] eqn:Hl; [|done..].
    intros Hrun. rewrite (IH _ Hrun), (step_enqueued _ _ _ Hl).
    rewrite <- app_assoc. f_equal. unfold tasks_of.
    by destruct l.
Qed.

End LoopFacts.

Section LoopExit.

Context {args world exn : Type}.

#[local] Abbreviation event_bus := (event_bus args world exn).
#[local] Abbreviation task := (task args).
#[local] Abbreviation system := (system args world exn).
#[local] Abbreviation label := (label args world exn).

Implicit Types (s : system) (l : label) (ls : list label) (t : task).

(** *** Who moves the worker thread *)

Lemma worker_or_client l : l = Worker ∨ l ≠ Worker.
Proof. destruct l; auto. Qed.

Lemma exited_or_running (pc : worker_pc args) : pc = Exited ∨ pc ≠ Exited.
Proof. destruct pc; auto. Qed.

(** A client call leaves the worker thread where it is and adds to the
    queue exactly the task it enqueues, at the tail. *)
Lemma step_client l s s' :
  l ≠ Worker → step l s = Next s' →
  event_loop_thread_ (loop s') = event_loop_thread_ (loop s) ∧
  async_event_queue_ (loop s') = async_event_queue_ (loop s) ++ tasks_of [l] ∧
  completed s' = completed s.
Proof.
  destruct l as [r n a| | | |r o|]; simpl; intros Hl; [..|done].
  - by intros [= <-].
  - unfold wait_until_finished.
    destruct (async_event_queue_ (loop s)) eqn:Hq; [|done].
    intros [= <-]. by rewrite Hq.
  - intros [= <-]. simpl. by rewrite app_nil_r.
  - unfold join. destruct (event_loop_thread_ (loop s)) eqn:Hpc; try done.
    intros [= <-]. by rewrite Hpc, app_nil_r.
  - destruct (call_bus_fields r o s) as (s1 & -> & Hloop & _ & Hc).
    intros [= <-]. by rewrite Hloop, app_nil_r.
Qed.

(** The worker leaves its loop exactly on seeing the flag set and the queue
    empty at the top of the loop. *)
Lemma worker_exit_iff s s' :
  process_event_loop s = Next s' →
  event_loop_thread_ (loop s') = Exited ↔
    event_loop_thread_ (loop s) = AtWait ∧ stop_flag_ (loop s) = true ∧
    async_event_queue_ (loop s) = [].
Proof.
  destruct (event_loop_thread_ (loop s)) as [|t| |] eqn:Hpc.
  - unfold process_event_loop. rewrite Hpc.
    destruct (async_event_queue_ (loop s)) as [|front rest];
      [destruct (stop_flag_ _) eqn:Hf|]; try done; intros [= <-]; simpl.
    + done.
    + split; [done | by intros (_ & _ & ?)].
  - rewrite (worker_step_holding s t Hpc).
    destruct (invoke_each _ _ _).2; [|done]. intros [= <-]. simpl.
    split; [done | by intros (? & _)].
  - unfold process_event_loop. rewrite Hpc. intros [= <-]. simpl.
    split; [done | by intros (? & _)].
  - unfold process_event_loop. by rewrite Hpc.
Qed.

Lemma worker_exited_blocked s :
  event_loop_thread_ (loop s) = Exited → process_event_loop s = Blocked.
Proof. unfold process_event_loop. by intros ->. Qed.

Lemma worker_exit_completed s s' :
  process_event_loop s = Next s' →
  event_loop_thread_ (loop s') = Exited →
  completed s' = completed s.
Proof.
  intros Hstep Hex. pose proof (proj1 (worker_exit_iff s s' Hstep) Hex)
    as (Hpc & Hf & Hq).
  revert Hstep. unfold process_event_loop. rewrite Hpc, Hq, Hf.
  by intros [= <-].
Qed.

(** Once the worker thread is over, no step brings it back or completes a
    task, and the queue only grows. *)
Lemma step_after_exit l s s' :
  event_loop_thread_ (loop s) = Exited → step l s = Next s' →
  event_loop_thread_ (loop s') = Exited ∧ completed s' = completed s ∧
  async_event_queue_ (loop s') = async_event_queue_ (loop s) ++ tasks_of [l].
Proof.
  intros Hex Hstep. destruct (worker_or_client l) as [->|Hl].
  - simpl in Hstep. by rewrite worker_exited_blocked in Hstep.
  - destruct (step_client l s s' Hl Hstep) as (Hpc & Hq & Hc).
    by rewrite Hpc.
Qed.

Lemma run_after_exit ls s s' :
  event_loop_thread_ (loop s) = Exited → run ls s = Next s' →
  event_loop_thread_ (loop s') = Exited ∧ completed s' = completed s ∧
  async_event_queue_ (loop s') = async_event_queue_ (loop s) ++ tasks_of ls.
Proof.
  revert s. induction ls as [|l ls IH]; intros s Hex; simpl.
  - intros [= <-]. by rewrite app_nil_r.
  - destruct (step l s) as [s1| |] eqn:Hl; [|done..]. intros Hrun.
    destruct (step_after_exit l s s1 Hex Hl) as (Hex1 & Hc1 & Hq1).
    destruct (IH s1 Hex1 Hrun) as (Hex' & Hc' & Hq').
    split; [done|]. split; [congruence|].
    rewrite Hq', Hq1, <- app_assoc. f_equal. unfold tasks_of. by destruct l.
Qed.

(** What was enqueued before the worker left its loop has completed. *)
Lemma step_drained (E : list task) l s s' :
  loop_inv s →
  (event_loop_thread_ (loop s) = Exited → ∃ later, completed s = E ++ later) →
  (∃ later, enqueued s = E ++ later) →
  step l s = Next s' →
  event_loop_thread_ (loop s') = Exited → ∃ later, completed s' = E ++ later.
Proof.
  intros [Henq _] Hdone Hpre Hstep Hex'.
  destruct (exited_or_running (event_loop_thread_ (loop s)))
    as [Hex|Hrunning].
  - destruct (step_after_exit l s s' Hex Hstep) as (_ & -> & _). auto.
  - destruct (worker_or_client l) as [->|Hl].
    + simpl in Hstep.
      rewrite (worker_exit_completed s s' Hstep Hex').
      destruct (proj1 (worker_exit_iff s s' Hstep) Hex') as (Hpc & _ & Hq).
      unfold in_flight in Henq. rewrite Hpc, Hq in Henq. simpl in Henq.
      rewrite app_nil_r in Henq. by rewrite <- Henq.
    + destruct (step_client l s s' Hl Hstep) as (Hpc & _ & _). congruence.
Qed.

Lemma run_drained (E : list task) ls s s' :
  loop_inv s →
  (event_loop_thread_ (loop s) = Exited → ∃ later, completed s = E ++ later) →
  (∃ later, enqueued s = E ++ later) →
  run ls s = Next s' →
  event_loop_thread_ (loop s') = Exited → ∃ later, completed s' = E ++ later.
Proof.
  revert s. induction ls as [|l ls IH]; intros s Hinv Hdone Hpre; simpl.
  - intros [= <-]. done.
  - destruct (step l s) as [s1| |] eqn:Hl; [|done..].
    apply IH.
    + by eapply step_loop_inv.
    + by eapply step_drained.
    + destruct Hpre as [later Hpre]. rewrite (step_enqueued _ _ _ Hl), Hpre.
      rewrite <- app_assoc. eauto.
Qed.

End LoopExit.

Section Drain.

Context {args world exn : Type}.

#[local] Abbreviation event_bus := (event_bus args world exn).
#[local] Abbreviation task := (task args).
#[local] Abbreviation system := (system args world exn).
#[local] Abbreviation label := (label args world exn).

Implicit Types (s : system) (t : task) (h : gmap bus_ref event_bus).

(** *** The worker alone empties the queue *)

Lemma bus_at_insert_same h r r' :
  bus_at (<[r := bus_at h r]> h) r' = bus_at h r'.
Proof.
  unfold bus_at at 1 3. rewrite lookup_insert.
  case_decide; [by subst | done].
Qed.

Lemma never_throws_insert_same h r :
  never_throws h → never_throws (<[r := bus_at h r]> h).
Proof.
  intros Hh r' n a w. rewrite bus_at_insert_same. apply Hh.
Qed.

Lemma run_worker_cons (ls : list label) s :
  run (Worker :: ls) s =
    match process_event_loop s with
    | Next s' => run ls s'
    | Blocked => Blocked
    | Terminate w => Terminate w
    end.
Proof. reflexivity. Qed.

(** With the flag set and handlers that do not throw, the worker, from the
    top of its loop, runs the queued tasks in order and leaves the loop. *)
Lemma drain_at_wait (q : list task) :
  ∀ h (w : world) (enq comp : list task),
    never_throws h →
    ∃ (k : nat) s',
      run (repeat Worker k)
        {| loop := {| async_event_queue_ := q; stop_flag_ := true;
                      event_loop_thread_ := AtWait |};
           buses := h; sys_world := w; enqueued := enq; completed := comp |}
        = Next s' ∧
      event_loop_thread_ (loop s') = Exited ∧
      async_event_queue_ (loop s') = [] ∧
      completed s' = comp ++ q ∧ enqueued s' = enq.
Proof.
  induction q as [|t q IH]; intros h w enq comp Hh.
  - exists 1%nat. eexists. split; [reflexivity|]. simpl.
    by rewrite app_nil_r.
  - destruct (Hh (task_bus t) (task_event t) (task_args t) w) as [w' Hw'].
    destruct (IH (<[task_bus t := bus_at h (task_bus t)]> h) w' enq
                (comp ++ [t]) (never_throws_insert_same h _ Hh))
      as (k & s' & Hrun & Hex & Hq & Hc & He).
    exists (S (S (S k))), s'.
    split; [|by rewrite Hc, <- app_assoc].
    change (repeat Worker (S (S (S k))))
      with (Worker :: Worker :: Worker :: repeat (@Worker args world exn) k).
    rewrite run_worker_cons. cbn [process_event_loop loop event_loop_thread_
      async_event_queue_ stop_flag_ buses sys_world enqueued completed].
    rewrite run_worker_cons. erewrite worker_step_holding by reflexivity.
    cbn [loop event_loop_thread_ async_event_queue_ stop_flag_ buses
         sys_world enqueued completed].
    rewrite Hw'. rewrite run_worker_cons.
    cbn [process_event_loop loop event_loop_thread_
      async_event_queue_ stop_flag_ buses sys_world enqueued completed].
    exact Hrun.
Qed.

(** The same from any point of the loop the worker may be at. *)
Lemma drain s :
  loop_inv s → stop_flag_ (loop s) = true →
  event_loop_thread_ (loop s) ≠ Exited → never_throws (buses s) →
  ∃ (k : nat) s',
    run (repeat Worker k) s = Next s' ∧
    event_loop_thread_ (loop s') = Exited ∧
    async_event_queue_ (loop s') = [] ∧
    completed s' = enqueued s ∧ enqueued s' = enqueued s.
Proof.
  destruct s as [[q f pc] h w enq comp]. unfold loop_inv, in_flight. simpl.
  intros [Henq _] -> Hpc Hh. destruct pc as [|t| |]; [| | |done].
  - destruct (drain_at_wait q h w enq comp Hh)
      as (k & s' & Hrun & Hex & Hq & Hc & He).
    exists k, s'. split; [exact Hrun|]. split; [done|]. split; [done|].
    split; [|done]. by rewrite Hc, Henq.
  - destruct (Hh (task_bus t) (task_event t) (task_args t) w) as [w' Hw'].
    destruct (drain_at_wait q (<[task_bus t := bus_at h (task_bus t)]> h) w'
                enq (comp ++ [t]) (never_throws_insert_same h _ Hh))
      as (k & s' & Hrun & Hex & Hq & Hc & He).
    exists (S (S k)), s'.
    split; [|split; [done|]; split; [done|]; split; [|done];
              by rewrite Hc, Henq, <- app_assoc].
    change (repeat Worker (S (S k)))
      with (Worker :: Worker :: repeat (@Worker args world exn) k).
    rewrite run_worker_cons. erewrite worker_step_holding by reflexivity.
    cbn [loop event_loop_thread_ async_event_queue_ stop_flag_ buses
         sys_world enqueued completed].
    rewrite Hw'. rewrite run_worker_cons.
    cbn [process_event_loop loop event_loop_thread_
      async_event_queue_ stop_flag_ buses sys_world enqueued completed].
    exact Hrun.
  - destruct (drain_at_wait q h w enq comp Hh)
      as (k & s' & Hrun & Hex & Hq & Hc & He).
    exists (S k), s'.
    split; [|split; [done|]; split; [done|]; split; [|done];
              by rewrite Hc, Henq].
    change (repeat Worker (S k))
      with (Worker :: repeat (@Worker args world exn) k).
    rewrite run_worker_cons.
    cbn [process_event_loop loop event_loop_thread_
      async_event_queue_ stop_flag_ buses sys_world enqueued completed].
    exact Hrun.
Qed.

End Drain.

(** ** Order of execution *)



(** ** Stop and destruction *)

(** Before the stop flag is set the worker thread has not left its loop. *)
Lemma running_before_stop {args world exn : Type}
    (h : gmap bus_ref (event_bus args world exn)) (w : world)
    (ls : list (label args world exn)) (s : system args world exn) :
  run ls (init h w) = Next s →
  stop_flag_ (loop s) = false → event_loop_thread_ (loop s) ≠ Exited.
Proof.
  intros Hrun Hflag Hex.
  destruct (reachable_loop_inv _ _ _ _ Hrun) as [_ Hstop].
  rewrite (Hstop Hex) in Hflag. done.
Qed.

Lemma quiet_buses_never_throw : never_throws Sample.quiet_buses.
Proof.
  intros r n a w. unfold Sample.quiet_buses, bus_at.
  rewrite lookup_singleton. case_decide as Hr; simpl.
  - rewrite handlers_of_subscribe. case_decide as Hn.
    + rewrite handlers_of_new. simpl. eauto.
    + rewrite handlers_of_new. simpl. eauto.
  - rewrite handlers_of_new. simpl. eauto.
Qed.

(** ** Enqueueing *)

(** C10: [enqueue_event] never rejects a task: in every state of the loop,
    the stop flag set or not, it returns normally with the task appended at
    the tail of the queue and nothing else changed; and when the worker
    thread has already left its loop, the task stays in the queue for ever:
    no later step completes any task, and the worker takes no step. *)
Theorem enqueue_event_never_rejects {args world exn : Type}
    (s : system args world exn) (bus : bus_ref) (event_name : string)
    (params : args) :
  ∃ s', enqueue_event bus event_name params s = Next s' ∧
    async_event_queue_ (loop s') =
      async_event_queue_ (loop s) ++ [mk_task bus event_name params] ∧
    stop_flag_ (loop s') = stop_flag_ (loop s) ∧
    event_loop_thread_ (loop s') = event_loop_thread_ (loop s) ∧
    buses s' = buses s ∧ sys_world s' = sys_world s ∧
    completed s' = completed s ∧
    (event_loop_thread_ (loop s) = Exited →
     ∀ ls s'', run ls s' = Next s'' →
       completed s'' = completed s ∧
       process_event_loop s'' = Blocked ∧
       async_event_queue_ (loop s'') =
         async_event_queue_ (loop s) ++
         mk_task bus event_name params :: tasks_of ls).
Proof.
  eexists. split; [reflexivity|]. simpl. repeat (split; [reflexivity|]).
  intros Hex ls s'' Hrun.
  apply run_after_exit in Hrun as (Hex' & Hc & Hq); [|exact Hex].
  split; [exact Hc|]. split; [by apply worker_exited_blocked|].
  rewrite Hq. simpl. by rewrite <- app_assoc.
Qed.

Lemma enqueue_event_never_rejects_witness :
  ∃ s s' s'',
    run Sample.stopped_idle (init Sample.shared_buses []) = Next s ∧
    event_loop_thread_ (loop s) = Exited ∧
    enqueue_event 0%nat "OnFactorial" 15 s = Next s' ∧
    run [Worker; CallWait; CallStop; Worker] s' = Blocked ∧
    run [CallStop; CallBus 0%nat OpClear; CallJoin] s' = Next s'' ∧
    completed s'' = [] ∧
    async_event_queue_ (loop s'') = [mk_task 0%nat "OnFactorial" 15].
Proof.
  destruct (run Sample.stopped_idle (init Sample.shared_buses []))
    as [s| |] eqn:Hrun; [|by vm_compute in Hrun..].
  assert (event_loop_thread_ (loop s) = Exited) as Hex
    by (vm_compute in Hrun; by injection Hrun as <-).
  destruct (enqueue_event_never_rejects s 0%nat "OnFactorial" 15)
    as (s' & Henq & Hq & _ & _ & _ & _ & Hc & Hnever).
  destruct (run [CallStop; CallBus 0%nat OpClear; CallJoin] s')
    as [s''| |] eqn:Hrun';
    [|vm_compute in Hrun; injection Hrun as <-;
      vm_compute in Henq; injection Henq as <-; by vm_compute in Hrun'..].
  destruct (Hnever Hex _ _ Hrun') as (Hc'' & _ & Hq'').
  exists s, s', s''. split; [reflexivity|]. split; [exact Hex|].
  split; [exact Henq|].
  vm_compute in Hrun. injection Hrun as <-.
  vm_compute in Henq. injection Henq as <-.
  split; [reflexivity|]. split; [exact Hrun'|].
  split; [exact Hc''|]. exact Hq''.
Defined.

(** ** Waiting for the queue *)

(** C1, on the code: [wait_until_finished] can return while an enqueued
    task has been popped and has not run. The task is enqueued, the worker
    pops it, the client's wait sees an empty queue and returns; the task
    completes only at the worker's next step. *)
Theorem wait_until_finished_returns_early :
  ∃ s s',
    run Sample.early_wait (init Sample.shared_buses []) = Next s ∧
    enqueued s = [mk_task 0%nat "OnFactorial" 15] ∧
    completed s = [] ∧
    in_flight s = [mk_task 0%nat "OnFactorial" 15] ∧
    sys_world s = [] ∧
    run [Worker] s = Next s' ∧
    completed s' = [mk_task 0%nat "OnFactorial" 15] ∧
    sys_world s' = [("factorial", 15)].
Proof.
  destruct (run Sample.early_wait (init Sample.shared_buses []))
    as [s| |] eqn:Hrun; [|by vm_compute in Hrun..].
  vm_compute in Hrun. injection Hrun as <-.
  eexists _, _. split; [reflexivity|].
  split; [reflexivity|]. split; [reflexivity|]. split; [reflexivity|].
  split; [reflexivity|]. split; [vm_compute; reflexivity|].
  split; reflexivity.
Qed.

(** ** Exceptions *)

(** C3 (as amended): an exception that a task raises in the worker thread
    is not caught by the loop: it leaves [process_event_loop], which ends
    the program through [std::terminate], and no queued task is executed
    after it, whatever the schedule; for a direct [trigger], the exception
    of the first handler that throws reaches the caller at once, the
    handlers after it not being called. *)
Theorem exception_leaves_worker_and_trigger {args world exn : Type} :
  (∀ (s : system args world exn) (t : task args) (e : exn) (w' : world),
     event_loop_thread_ (loop s) = Holding t →
     (trigger_impl (task_event t) (task_args t)
        (bus_at (buses s) (task_bus t)) (sys_world s)).2.2 = Throws e w' →
     process_event_loop s = Terminate w' ∧
     ∀ ls, run (Worker :: ls) s = Terminate w') ∧
  (∀ (b : event_bus args world exn) (event_name : string) (a : args)
     (w : world) v1 p v2 (w1 : world) (e : exn) (w' : world),
     handlers_of b event_name = v1 ++ p :: v2 →
     invoke_each v1 a w = (calls_of v1 a, Returns w1) →
     invoke p.2 a w1 = Throws e w' →
     trigger event_name a b w = (b, (calls_of (v1 ++ [p]) a, Throws e w'))).
Proof.
  split.
  - intros s t e w' Hpc Hthrow. rewrite trigger_impl_unfold in Hthrow.
    simpl in Hthrow.
    assert (process_event_loop s = Terminate w') as Hstep
      by (by rewrite (worker_step_holding s t Hpc), Hthrow).
    split; [exact Hstep|]. intros ls. by rewrite run_worker_cons, Hstep.
  - intros b n a w v1 [id h] v2 w1 e w' Hv Hv1 Hp.
    rewrite trigger_unfold, Hv. f_equal.
    by eapply invoke_each_app_throws.
Qed.

Lemma exception_leaves_worker_and_trigger_witness :
  ∃ s : system Z Sample.log string,
    run [CallEnqueue 0%nat "OnMessage" 1; Worker]
      (init Sample.shared_buses []) = Next s ∧
    event_loop_thread_ (loop s) = Holding (mk_task 0%nat "OnMessage" 1) ∧
    process_event_loop s = Terminate [] ∧
    trigger "OnMessage" 1 Sample.shared_event_bus [] =
      (Sample.shared_event_bus,
       ([(Sample.thrower "boom", 1)], Throws "boom" [])).
Proof.
  destruct (@exception_leaves_worker_and_trigger Z Sample.log string)
    as [Hworker Htrigger].
  destruct (run [CallEnqueue 0%nat "OnMessage" 1; Worker]
              (init Sample.shared_buses [])) as [s| |] eqn:Hrun;
    [|by vm_compute in Hrun..].
  exists s. split; [reflexivity|].
  assert (event_loop_thread_ (loop s) = Holding (mk_task 0%nat "OnMessage" 1))
    as Hpc by (vm_compute in Hrun; by injection Hrun as <-).
  split; [exact Hpc|]. split.
  - apply (Hworker s _ "boom" [] Hpc).
    vm_compute in Hrun. injection Hrun as <-. reflexivity.
  - apply (Htrigger Sample.shared_event_bus "OnMessage" 1 [] []
             (1, Sample.thrower "boom") [] [] "boom" []); reflexivity.
Defined.

(** C3, as stated, fails: with two tasks queued of which the first throws,
    the worker's call of the first ends the program, and under no schedule
    that goes on from there is the second task, or anything, run. *)
Lemma worker_does_not_catch_counterexample :
  run Sample.throwing_task (init Sample.shared_buses []) = Terminate [] ∧
  ∀ ls, run (Sample.throwing_task ++ ls) (init Sample.shared_buses [])
          = Terminate [].
Proof.
  assert (run Sample.throwing_task (init Sample.shared_buses [])
            = Terminate []) as H by (vm_compute; reflexivity).
  split; [exact H|]. intros ls. by apply run_terminate.
Qed.

(** * Further properties of the event bus *)

Section BusMore.

Context {args world exn : Type}.

#[local] Abbreviation completion := (completion world exn).
#[local] Abbreviation handler := (type_erased_handler args world exn).
#[local] Abbreviation event_bus := (event_bus args world exn).
#[local] Abbreviation bus_op := (bus_op args world exn).

Implicit Types (b : event_bus) (n : string) (id : Z) (h : handler)
  (a : args) (w : world) (v : list (Z * handler)).

Lemma bus_ext b1 b2 :
  subscribers_ b1 = subscribers_ b2 → next_id_ b1 = next_id_ b2 → b1 = b2.
Proof. destruct b1, b2. simpl. by intros -> ->. Qed.

(** The dispatch loop over two lists, one after the other. *)
Lemma invoke_each_app v1 v2 a w :
  invoke_each (v1 ++ v2) a w =
    match invoke_each v1 a w with
    | (cs, Returns w1) =>
        ((cs ++ (invoke_each v2 a w1).1), (invoke_each v2 a w1).2)
    | (cs, Throws e w1) => (cs, Throws e w1)
    end.
Proof.
  revert w. induction v1 as [|[id h] v1 IH]; intros w.
  - simpl. by destruct (invoke_each v2 a w).
  - rewrite <- app_comm_cons.
    destruct (invoke h a w) as [w1|e w1] eqn:Hh.
    + rewrite !(invoke_each_cons_returns _ _ _ _ _ _ Hh), IH.
      by destruct (invoke_each v1 a w1) as [cs [w2|e w2]].
    + by rewrite !(invoke_each_cons_throws _ _ _ _ _ _ _ Hh).
Qed.

Lemma elem_of_erase_remove_if {A} (f : A → bool) (l : list A) (x : A) :
  x ∈ erase_remove_if f l ↔ x ∈ l ∧ f x = false.
Proof.
  unfold erase_remove_if. rewrite !list_elem_of_In, List.filter_In.
  by rewrite negb_true_iff.
Qed.

Lemma erase_remove_if_sublist {A} (f : A → bool) (l : list A) :
  erase_remove_if f l `sublist_of` l.
Proof.
  unfold erase_remove_if. induction l as [|x l IH]; simpl; [done|].
  destruct (f x); simpl; by constructor.
Qed.

Lemma erase_remove_if_twice {A} (f : A → bool) (l : list A) :
  erase_remove_if f (erase_remove_if f l) = erase_remove_if f l.
Proof.
  apply erase_remove_if_none. intros x Hx.
  by apply elem_of_erase_remove_if in Hx as [_ ?].
Qed.

Lemma unsubscribe_idempotent n id b :
  unsubscribe n id (unsubscribe n id b) = unsubscribe n id b.
Proof.
  apply bus_ext; [|by rewrite !unsubscribe_next_id].
  apply map_eq. intros n'. rewrite (unsubscribe_lookup n id (unsubscribe _ _ _)).
  case_decide as Hn; [|done]. subst n'.
  rewrite (unsubscribe_lookup n id b). case_decide; [|done].
  destruct (subscribers_ b !! n) as [v|]; [|done].
  destruct (erase_remove_if _ v) as [|p v'] eqn:Hv; [done|].
  by rewrite <- Hv, erase_remove_if_twice, Hv.
Qed.

End BusMore.

(** X1: [clear] empties the registry and keeps the id counter: after it
    every [trigger] and every [unsubscribe] is a no-op, a second [clear]
    changes nothing, and the next [subscribe] is given the id that was next
    before the [clear], as the only subscription of its name. *)
Theorem clear_drops_all_subscriptions {args world exn : Type}
    (b : event_bus args world exn) :
  (∀ n, subscribers_ (clear b) !! n = None) ∧
  next_id_ (clear b) = next_id_ b ∧
  (∀ n a w, trigger n a (clear b) w = (clear b, ([], Returns w))) ∧
  (∀ n id, unsubscribe n id (clear b) = clear b) ∧
  clear (clear b) = clear b ∧
  (∀ n h, (subscribe n h (clear b)).1 = next_id_ b ∧
          handlers_of (subscribe n h (clear b)).2 n = [(next_id_ b, h)]).
Proof.
  assert (∀ n, subscribers_ (clear b) !! n = None) as Hnone
    by (intros n; unfold clear; simpl; apply lookup_empty).
  split; [exact Hnone|]. split; [done|].
  split; [|split; [|split; [done|]]].
  - intros n a w. by rewrite trigger_unfold, handlers_of_clear.
  - intros n id. apply unsubscribe_absent, Hnone.
  - intros n h. rewrite subscribe_id, handlers_of_subscribe.
    rewrite decide_True by done. by rewrite handlers_of_clear.
Qed.

(** X2: [subscribe] returns the current value of the counter and puts the
    handler last in the list of its name: a later [trigger] on the name
    calls the handlers that were there, in the same order and to the same
    effect, and then, if none of them threw, the new handler on the world
    they left; the other names are untouched and trigger as before. *)
Theorem subscribe_appends_handler {args world exn : Type}
    (b : event_bus args world exn) (n : string)
    (h : type_erased_handler args world exn) :
  let b' := (subscribe n h b).2 in
  (subscribe n h b).1 = next_id_ b ∧
  handlers_of b' n = handlers_of b n ++ [(next_id_ b, h)] ∧
  (∀ n', n' ≠ n →
     subscribers_ b' !! n' = subscribers_ b !! n' ∧
     ∀ a w, (trigger n' a b' w).2 = (trigger n' a b w).2) ∧
  (∀ a w,
     (trigger n a b' w).2 =
       match (trigger n a b w).2 with
       | (cs, Returns w1) => (cs ++ [(h, a)], invoke h a w1)
       | (cs, Throws e w1) => (cs, Throws e w1)
       end).
Proof.
  intros b'. split; [apply subscribe_id|].
  assert (handlers_of b' n = handlers_of b n ++ [(next_id_ b, h)]) as Hn.
  { unfold b'. rewrite handlers_of_subscribe. by rewrite decide_True. }
  split; [exact Hn|]. split.
  - intros n' Hne. unfold b'. split.
    + rewrite subscribe_lookup. by rewrite decide_False.
    + intros a w. rewrite !trigger_unfold. simpl.
      rewrite handlers_of_subscribe. by rewrite decide_False.
  - intros a w. rewrite !trigger_unfold. simpl. rewrite Hn, invoke_each_app.
    destruct (invoke_each (handlers_of b n) a w) as [cs [w1|e w1]]; [|done].
    simpl. by destruct (invoke h a w1).
Qed.

(** X3: [unsubscribe] removes from the list of the name the entries that
    carry the id and no other: what stays keeps its order, the other names
    and the id counter are untouched, and a second call with the same
    arguments changes nothing. *)
Theorem unsubscribe_removes_matching {args world exn : Type}
    (b : event_bus args world exn) (n : string) (id : Z) :
  let b' := unsubscribe n id b in
  (∀ p, p ∈ handlers_of b' n ↔ p ∈ handlers_of b n ∧ p.1 ≠ id) ∧
  handlers_of b' n `sublist_of` handlers_of b n ∧
  (∀ n', n' ≠ n → subscribers_ b' !! n' = subscribers_ b !! n') ∧
  next_id_ b' = next_id_ b ∧
  unsubscribe n id b' = b'.
Proof.
  intros b'. unfold b'. rewrite handlers_of_unsubscribe, decide_True by done.
  split; [|split; [|split; [|split]]].
  - intros p. rewrite elem_of_erase_remove_if.
    by rewrite bool_decide_eq_false.
  - apply erase_remove_if_sublist.
  - intros n' Hne. rewrite unsubscribe_lookup. by rewrite decide_False.
  - apply unsubscribe_next_id.
  - apply unsubscribe_idempotent.
Qed.

Section IdsUnique.

Context {args world exn : Type}.

#[local] Abbreviation handler := (type_erased_handler args world exn).
#[local] Abbreviation event_bus := (event_bus args world exn).
#[local] Abbreviation bus_op := (bus_op args world exn).

Implicit Types (b : event_bus) (n : string) (id : Z) (h : handler).

(** *** The ids in the registry *)

Lemma ids_inv_new : ids_inv (@new_bus args world exn).
Proof.
  unfold ids_inv. split; [unfold INT_MAX; simpl; lia|].
  split; [|split].
  - intros n p. rewrite handlers_of_new. by intros ?%elem_of_nil.
  - intros n. rewrite handlers_of_new. constructor.
  - intros n1 n2 p1 p2. rewrite handlers_of_new. by intros ?%elem_of_nil.
Qed.

Lemma ids_inv_subscribe n h b :
  ids_inv b → next_id_ b < INT_MAX → ids_inv (subscribe n h b).2.
Proof.
  intros (Hk & Hbound & Hdup & Hcross) Hlt.
  assert (next_id_ (subscribe n h b).2 = next_id_ b + 1) as Hnext.
  { rewrite subscribe_next_id. apply int_wrap_id.
    unfold INT_MIN, INT_MAX in *. lia. }
  assert (∀ n' p, p ∈ handlers_of (subscribe n h b).2 n' →
            p ∈ handlers_of b n' ∨ (n' = n ∧ p = (next_id_ b, h))) as Hin.
  { intros n' p. rewrite handlers_of_subscribe. case_decide as Hn; [|auto].
    subst n'. rewrite elem_of_app, list_elem_of_singleton.
    intros [?| ->]; auto. }
  unfold ids_inv. rewrite Hnext. split; [lia|]. split; [|split].
  - intros n' p [Hp|[_ ->]]%Hin; [|simpl; lia].
    specialize (Hbound n' p Hp). lia.
  - intros n'. rewrite handlers_of_subscribe. case_decide as Hn; [|done].
    rewrite fmap_app. apply NoDup_app. split; [done|]. split.
    + intros x (p & -> & Hp)%list_elem_of_fmap. simpl.
      rewrite list_elem_of_singleton. specialize (Hbound n p Hp). lia.
    + apply NoDup_singleton.
  - intros n1 n2 p1 p2 [H1|[-> ->]]%Hin [H2|[-> ->]]%Hin Heq.
    + by eapply Hcross.
    + specialize (Hbound n1 p1 H1). simpl in Heq. lia.
    + specialize (Hbound n2 p2 H2). simpl in Heq. lia.
    + done.
Qed.

Lemma ids_inv_unsubscribe n id b : ids_inv b → ids_inv (unsubscribe n id b).
Proof.
  intros (Hk & Hbound & Hdup & Hcross).
  assert (∀ n', handlers_of (unsubscribe n id b) n' `sublist_of`
                  handlers_of b n') as Hsub.
  { intros n'. rewrite handlers_of_unsubscribe. case_decide as Hn; [|done].
    subst n'. apply erase_remove_if_sublist. }
  unfold ids_inv. rewrite unsubscribe_next_id. split; [done|].
  split; [|split].
  - intros n' p Hp. apply (Hbound n'). by eapply elem_of_sublist.
  - intros n'. eapply sublist_NoDup; [apply (Hdup n')|].
    by apply fmap_sublist.
  - intros n1 n2 p1 p2 H1 H2. apply Hcross; by eapply elem_of_sublist.
Qed.

Lemma ids_inv_clear b : ids_inv b → ids_inv (clear b).
Proof.
  intros (Hk & _). unfold ids_inv. split; [done|]. split; [|split].
  - intros n p. rewrite handlers_of_clear. by intros ?%elem_of_nil.
  - intros n. rewrite handlers_of_clear. constructor.
  - intros n1 n2 p1 p2. rewrite handlers_of_clear. by intros ?%elem_of_nil.
Qed.

Lemma ids_inv_run_ops (os : list bus_op) (s : event_bus * world) :
  ids_inv s.1 →
  next_id_ s.1 + Z.of_nat (subscribe_calls os) ≤ INT_MAX →
  ids_inv (run_ops os s).1.1.
Proof.
  revert s. unfold subscribe_calls.
  induction os as [|o os IH]; intros [b w]; simpl; [done|].
  intros Hinv Hcount.
  pose proof (run_op_next_id o (b, w)) as Hnext.
  assert (ids_inv (run_op o (b, w)).1.1) as Hinv'.
  { destruct o as [n h|n id|n a|]; simpl in Hcount |- *.
    - pose proof (ids_inv_subscribe n h b Hinv) as H.
      destruct (subscribe n h b). apply H. lia.
    - by apply ids_inv_unsubscribe.
    - rewrite trigger_unfold. by destruct (invoke_each _ _ _).
    - by apply ids_inv_clear. }
  destruct (run_op o (b, w)) as [s' e]. cbn [fst snd] in Hnext, Hinv'.
  specialize (IH s' Hinv').
  destruct (run_ops os s') as [s'' es]. cbn [fst snd] in IH |- *.
  apply IH. rewrite Hnext. destruct (is_subscribe o); simpl in Hcount.
  - destruct Hinv as (Hk & _).
    rewrite int_wrap_id by (unfold INT_MIN, INT_MAX in *; lia). lia.
  - lia.
Qed.

(** With ids that are not repeated, the entry of an id is removed alone. *)
Lemma erase_remove_if_one (v1 v2 : list (Z * handler)) id h :
  NoDup (v1 ++ (id, h) :: v2).*1 →
  erase_remove_if (λ pair, bool_decide (pair.1 = id)) (v1 ++ (id, h) :: v2)
    = v1 ++ v2.
Proof.
  rewrite fmap_app, fmap_cons. simpl.
  intros (_ & Hnot1 & [Hnot2 _]%NoDup_cons)%NoDup_app.
  unfold erase_remove_if. rewrite List.filter_app. simpl.
  rewrite bool_decide_eq_true_2 by done. simpl. f_equal.
  - apply (erase_remove_if_none (λ pair, bool_decide (pair.1 = id))).
    intros p Hp. apply bool_decide_eq_false. intros Heq.
    apply (Hnot1 p.1); [by apply list_elem_of_fmap_2|].
    rewrite Heq. left.
  - apply (erase_remove_if_none (λ pair, bool_decide (pair.1 = id))).
    intros p Hp. apply bool_decide_eq_false. intros Heq.
    apply Hnot2. rewrite <- Heq. by apply list_elem_of_fmap_2.
Qed.

End IdsUnique.

(** X4: on a bus that has received fewer than 2^31 [subscribe] calls,
    whatever other calls came in between, every id in the registry is one
    the counter has handed out (it lies between 0 and the counter), and no
    two subscriptions carry the same id, under one name or under two. *)
Theorem registered_ids_are_unique {args world exn : Type}
    (ops : list (bus_op args world exn)) (w0 : world) :
  Z.of_nat (subscribe_calls ops) ≤ INT_MAX →
  let b := (run_ops ops (new_bus, w0)).1.1 in
  (∀ n p, p ∈ handlers_of b n → 0 ≤ p.1 < next_id_ b) ∧
  (∀ n, NoDup (handlers_of b n).*1) ∧
  (∀ n1 n2 p1 p2,
     p1 ∈ handlers_of b n1 → p2 ∈ handlers_of b n2 → p1.1 = p2.1 → n1 = n2).
Proof.
  intros Hcount b.
  destruct (ids_inv_run_ops ops (new_bus, w0)) as (_ & H1 & H2 & H3);
    [apply ids_inv_new | simpl; lia | done].
Qed.

Lemma registered_ids_are_unique_witness :
  let ops : list (bus_op Z Sample.log string) :=
    [OpSubscribe "OnCalc" (Sample.logger "calc");
     OpSubscribe "OnMessage" (Sample.logger "H1");
     OpUnsubscribe "OnCalc" 0;
     OpSubscribe "OnMessage" (Sample.logger "H2")] in
  let b := (run_ops ops (new_bus, [])).1.1 in
  Z.of_nat (subscribe_calls ops) ≤ INT_MAX ∧
  (handlers_of b "OnMessage").*1 = [1; 2] ∧
  NoDup (handlers_of b "OnMessage").*1.
Proof.
  intros ops b.
  assert (Z.of_nat (subscribe_calls ops) ≤ INT_MAX) as H
    by (unfold ops, subscribe_calls, INT_MAX; simpl; lia).
  split; [exact H|]. split; [reflexivity|].
  destruct (registered_ids_are_unique ops ([] : Sample.log) H)
    as (_ & Hdup & _).
  exact (Hdup "OnMessage").
Defined.

(** X5: on a bus whose ids are not repeated, [unsubscribe] with the name
    and the id of a subscription removes that subscription and nothing
    else; with the id and another name, on a bus that keeps the registry
    invariant, it changes nothing. *)
Theorem unsubscribe_removes_one {args world exn : Type}
    (b : event_bus args world exn) (n : string) (id : Z)
    (h : type_erased_handler args world exn) :
  ids_inv b → registry_inv b →
  (id, h) ∈ handlers_of b n →
  (∃ v1 v2,
     handlers_of b n = v1 ++ (id, h) :: v2 ∧
     handlers_of (unsubscribe n id b) n = v1 ++ v2) ∧
  (∀ n', n' ≠ n →
     handlers_of (unsubscribe n id b) n' = handlers_of b n') ∧
  (∀ n', n' ≠ n → unsubscribe n' id b = b).
Proof.
  intros (_ & _ & Hdup & Hcross) Hreg Hin. split; [|split].
  - destruct (list_elem_of_split _ _ Hin) as (v1 & v2 & Hv).
    exists v1, v2. split; [exact Hv|].
    rewrite handlers_of_unsubscribe, decide_True by done.
    rewrite Hv. apply erase_remove_if_one. rewrite <- Hv. apply Hdup.
  - intros n' Hne. rewrite handlers_of_unsubscribe. by rewrite decide_False.
  - intros n' Hne. apply unsubscribe_unknown_id; [done|].
    intros p Hp Heq. apply Hne. by apply (Hcross n' n p (id, h)).
Qed.

Lemma unsubscribe_removes_one_witness :
  let b : event_bus Z Sample.log string :=
    (run_ops [OpSubscribe "OnMessage" (Sample.logger "H1");
              OpSubscribe "OnMessage" (Sample.logger "H2");
              OpSubscribe "OnCalc" (Sample.logger "calc")] (new_bus, [])).1.1 in
  ids_inv b ∧ registry_inv b ∧
  (0, Sample.logger "H1") ∈ handlers_of b "OnMessage" ∧
  handlers_of (unsubscribe "OnMessage" 0 b) "OnMessage"
    = [(1, Sample.logger "H2")] ∧
  unsubscribe "OnCalc" 0 b = b.
Proof.
  intros b.
  assert (ids_inv b) as Hids.
  { apply (ids_inv_run_ops _ (new_bus, [])); [apply ids_inv_new|].
    unfold subscribe_calls, INT_MAX. simpl. lia. }
  assert (registry_inv b) as Hreg
    by apply (registry_inv_run_ops _ (new_bus, [])), registry_inv_new.
  assert ((0, Sample.logger "H1") ∈ handlers_of b "OnMessage") as Hin
    by (change (handlers_of b "OnMessage")
          with [(0, Sample.logger "H1"); (1, Sample.logger "H2")]; left).
  destruct (unsubscribe_removes_one b "OnMessage" 0 (Sample.logger "H1")
              Hids Hreg Hin) as (_ & _ & Hother).
  split; [exact Hids|]. split; [exact Hreg|]. split; [exact Hin|].
  split; [reflexivity|]. by apply Hother.
Defined.

(** X6: subscribing and then unsubscribing with the id that [subscribe]
    returned gives back the registry as it was (the counter has moved on),
    on a bus that keeps the registry invariant and on which the id is not
    already in use for the name. *)
Theorem subscribe_unsubscribe_round_trip {args world exn : Type}
    (b : event_bus args world exn) (n : string)
    (h : type_erased_handler args world exn) :
  registry_inv b →
  (∀ p, p ∈ handlers_of b n → p.1 ≠ next_id_ b) →
  let r := subscribe n h b in
  subscribers_ (unsubscribe n r.1 r.2) = subscribers_ b ∧
  next_id_ (unsubscribe n r.1 r.2) = int_wrap (next_id_ b + 1).
Proof.
  intros Hreg Hfresh r. unfold r.
  rewrite unsubscribe_next_id, subscribe_next_id, subscribe_id.
  split; [|done]. apply map_eq. intros n'.
  rewrite unsubscribe_lookup. case_decide as Hn.
  - subst n'. rewrite subscribe_lookup, decide_True by done.
    unfold erase_remove_if. rewrite List.filter_app. simpl.
    rewrite bool_decide_eq_true_2 by done. simpl. rewrite app_nil_r.
    change (List.filter _ (handlers_of b n))
      with (erase_remove_if
              (λ pair : Z * type_erased_handler args world exn,
                 bool_decide (pair.1 = next_id_ b)) (handlers_of b n)).
    rewrite erase_remove_if_none.
    + unfold handlers_of.
      destruct (subscribers_ b !! n) as [[|p v]|] eqn:Hb; simpl; try done.
      by destruct (proj1 (registry_inv_lookup b) Hreg n).
    + intros p Hp. apply bool_decide_eq_false. by apply Hfresh.
  - rewrite subscribe_lookup. by rewrite decide_False.
Qed.

Lemma subscribe_unsubscribe_round_trip_witness :
  let b := Sample.one_subscriber in
  let r := subscribe "OnCalc" (Sample.logger "again") b in
  registry_inv b ∧
  (∀ p, p ∈ handlers_of b "OnCalc" → p.1 ≠ next_id_ b) ∧
  r.1 = 1 ∧
  subscribers_ (unsubscribe "OnCalc" r.1 r.2) = subscribers_ b.
Proof.
  intros b r.
  assert (registry_inv b) as Hreg
    by apply registry_inv_subscribe, registry_inv_new.
  assert (∀ p, p ∈ handlers_of b "OnCalc" → p.1 ≠ next_id_ b) as Hfresh.
  { intros p Hp. change (handlers_of b "OnCalc")
      with [(0, Sample.logger "calc")] in Hp.
    apply list_elem_of_singleton in Hp. by subst p. }
  split; [exact Hreg|]. split; [exact Hfresh|]. split; [reflexivity|].
  exact (proj1 (subscribe_unsubscribe_round_trip b "OnCalc"
                  (Sample.logger "again") Hreg Hfresh)).
Defined.

(** * Further properties of the event loop *)

Section LoopMore.

Context {args world exn : Type}.

#[local] Abbreviation event_bus := (event_bus args world exn).
#[local] Abbreviation task := (task args).
#[local] Abbreviation system := (system args world exn).
#[local] Abbreviation label := (label args world exn).

Implicit Types (s : system) (l : label) (ls : list label) (t : task)
  (h : gmap bus_ref event_bus).

Lemma tasks_of_app ls1 ls2 : tasks_of (ls1 ++ ls2) = tasks_of ls1 ++ tasks_of ls2.
Proof. unfold tasks_of. apply omap_app. Qed.

Lemma wait_returns_inv s s' :
  wait_until_finished s = Next s' → s' = s ∧ async_event_queue_ (loop s) = [].
Proof.
  unfold wait_until_finished.
  destruct (async_event_queue_ (loop s)); [|done]. by intros [= <-].
Qed.

(** *** The stop flag *)

(** Only [stop()] writes the flag, and it writes [true]. *)
Lemma step_stop_flag l s s' :
  step l s = Next s' →
  stop_flag_ (loop s') = stop_flag_ (loop s) ∨
  (l = CallStop ∧ stop_flag_ (loop s') = true).
Proof.
  destruct l as [r n a| | | |r o|]; simpl.
  - intros [= <-]. by left.
  - intros [-> _]%wait_returns_inv. by left.
  - intros [= <-]. by right.
  - unfold join. destruct (event_loop_thread_ (loop s)); try done.
    intros [= <-]. by left.
  - destruct (call_bus_fields r o s) as (s1 & -> & Hloop & _).
    intros [= <-]. left. by rewrite Hloop.
  - destruct (event_loop_thread_ (loop s)) as [|t| |] eqn:Hpc.
    + unfold process_event_loop. rewrite Hpc.
      destruct (async_event_queue_ (loop s)); [destruct (stop_flag_ _) eqn:Hf|];
        try done; intros [= <-]; by left.
    + rewrite (worker_step_holding s t Hpc).
      destruct (invoke_each _ _ _).2; [|done]. intros [= <-]. by left.
    + unfold process_event_loop. rewrite Hpc. intros [= <-]. by left.
    + unfold process_event_loop. by rewrite Hpc.
Qed.

Lemma run_stop_flag_set ls s s' :
  stop_flag_ (loop s) = true → run ls s = Next s' →
  stop_flag_ (loop s') = true.
Proof.
  apply (run_preserves (λ s, stop_flag_ (loop s) = true)).
  intros l x x' Hx [->|[_ ->]]%step_stop_flag; done.
Qed.

Lemma run_stop_flag_clear ls s s' :
  CallStop ∉ ls → stop_flag_ (loop s) = false → run ls s = Next s' →
  stop_flag_ (loop s') = false.
Proof.
  revert s. induction ls as [|l ls IH]; intros s Hnot Hf; simpl.
  - by intros [= <-].
  - apply not_elem_of_cons in Hnot as [Hl Hnot].
    destruct (step l s) as [s1| |] eqn:Hstep; [|done..].
    apply (IH s1 Hnot).
    destruct (step_stop_flag l s s1 Hstep) as [->|[-> _]]; done.
Qed.

End LoopMore.

(** X8: a task enqueued after the worker thread has left its loop stays in
    the queue, so from then on [wait_until_finished] never returns: in
    every later state of every schedule it is blocked. *)
Theorem wait_blocks_after_late_enqueue {args world exn : Type}
    (s : system args world exn) (bus : bus_ref) (event_name : string)
    (params : args) (ls : list (label args world exn))
    (s' : system args world exn) :
  event_loop_thread_ (loop s) = Exited →
  run (CallEnqueue bus event_name params :: ls) s = Next s' →
  wait_until_finished s' = Blocked ∧
  run (CallEnqueue bus event_name params :: ls ++ [CallWait]) s = Blocked.
Proof.
  intros Hex Hrun.
  assert (wait_until_finished s' = Blocked) as Hblocked.
  { destruct (run_after_exit _ s s' Hex Hrun) as (_ & _ & Hq).
    unfold wait_until_finished. rewrite Hq. simpl.
    by destruct (async_event_queue_ (loop s)). }
  split; [exact Hblocked|].
  change (CallEnqueue bus event_name params :: ls ++ [CallWait])
    with ((CallEnqueue bus event_name params :: ls) ++ [CallWait]).
  rewrite run_app, Hrun. simpl. by rewrite Hblocked.
Qed.

Lemma wait_blocks_after_late_enqueue_witness :
  ∃ s s' : system Z Sample.log string,
    run Sample.stopped_idle (init Sample.shared_buses []) = Next s ∧
    event_loop_thread_ (loop s) = Exited ∧
    run (CallEnqueue 0%nat "OnFactorial" 15 :: [CallStop; Worker]) s
      = Blocked ∧
    run (CallEnqueue 0%nat "OnFactorial" 15 :: [CallStop]) s = Next s' ∧
    wait_until_finished s' = Blocked.
Proof.
  destruct (run Sample.stopped_idle (init Sample.shared_buses []))
    as [s| |] eqn:Hrun; [|by vm_compute in Hrun..].
  assert (event_loop_thread_ (loop s) = Exited) as Hex
    by (vm_compute in Hrun; by injection Hrun as <-).
  destruct (run (CallEnqueue 0%nat "OnFactorial" 15 :: [CallStop]) s)
    as [s'| |] eqn:Hrun';
    [|vm_compute in Hrun; injection Hrun as <-; by vm_compute in Hrun'..].
  destruct (wait_blocks_after_late_enqueue s _ _ _ _ s' Hex Hrun')
    as [Hblocked _].
  exists s, s'. split; [reflexivity|]. split; [exact Hex|].
  split; [|split; [exact Hrun' | exact Hblocked]].
  vm_compute in Hrun. injection Hrun as <-. reflexivity.
Defined.

(** X9: [stop()] sets the stop flag and touches nothing else; a second
    [stop()] changes nothing; and once the flag is set no step of any
    thread clears it, while as long as no [stop()] is called it stays
    clear. *)
Theorem stop_flag_is_monotone {args world exn : Type} :
  (∀ s : system args world exn, ∃ s',
     stop s = Next s' ∧ stop_flag_ (loop s') = true ∧
     async_event_queue_ (loop s') = async_event_queue_ (loop s) ∧
     event_loop_thread_ (loop s') = event_loop_thread_ (loop s) ∧
     buses s' = buses s ∧ sys_world s' = sys_world s ∧
     completed s' = completed s ∧ stop s' = Next s') ∧
  (∀ ls (s s' : system args world exn),
     stop_flag_ (loop s) = true → run ls s = Next s' →
     stop_flag_ (loop s') = true) ∧
  (∀ ls (s s' : system args world exn),
     CallStop ∉ ls → stop_flag_ (loop s) = false → run ls s = Next s' →
     stop_flag_ (loop s') = false).
Proof.
  split; [|split].
  - intros s. eexists. split; [reflexivity|]. simpl. by repeat split.
  - apply run_stop_flag_set.
  - apply run_stop_flag_clear.
Qed.

(** X10: the worker thread leaves its loop only after a [stop()]: along a
    schedule without [stop()] the flag is clear, the worker is still in its
    loop and [join] is blocked, so that such a schedule contains no
    returned join. *)
Theorem worker_runs_until_stop {args world exn : Type}
    (h : gmap bus_ref (event_bus args world exn)) (w : world)
    (ls : list (label args world exn)) (s : system args world exn) :
  CallStop ∉ ls →
  run ls (init h w) = Next s →
  stop_flag_ (loop s) = false ∧
  event_loop_thread_ (loop s) ≠ Exited ∧
  join s = Blocked ∧
  CallJoin ∉ ls.
Proof.
  assert (∀ ls' s', CallStop ∉ ls' → run ls' (init h w) = Next s' →
            stop_flag_ (loop s') = false ∧
            event_loop_thread_ (loop s') ≠ Exited ∧ join s' = Blocked)
    as Hrunning.
  { intros ls' s' Hnot Hrun.
    assert (stop_flag_ (loop s') = false) as Hf
      by (by eapply (run_stop_flag_clear ls' (init h w))).
    assert (event_loop_thread_ (loop s') ≠ Exited) as Hpc.
    { intros Hex. destruct (reachable_loop_inv _ _ _ _ Hrun) as [_ Hstop].
      rewrite (Hstop Hex) in Hf. done. }
    split; [done|]. split; [done|].
    unfold join. by destruct (event_loop_thread_ (loop s')). }
  intros Hnot Hrun.
  destruct (Hrunning ls s Hnot Hrun) as (Hf & Hpc & Hjoin).
  split; [done|]. split; [done|]. split; [done|].
  intros (ls1 & ls2 & ->)%list_elem_of_split.
  apply run_app_next in Hrun as (s1 & Hrun1 & Hrun2).
  destruct (Hrunning ls1 s1) as (_ & _ & Hblocked); [|done|].
  - intros Hin. apply Hnot. apply elem_of_app. by left.
  - simpl in Hrun2. by rewrite Hblocked in Hrun2.
Qed.

Lemma worker_runs_until_stop_witness :
  ∃ s, run Sample.three_tasks (init Sample.shared_buses []) = Next s ∧
       (CallStop ∉ Sample.three_tasks) ∧
       stop_flag_ (loop s) = false ∧ join s = Blocked.
Proof.
  destruct (run Sample.three_tasks (init Sample.shared_buses []))
    as [s| |] eqn:Hrun; [|by vm_compute in Hrun..].
  assert (CallStop ∉ Sample.three_tasks) as Hnot.
  { unfold Sample.three_tasks. rewrite !not_elem_of_cons.
    repeat (split; [done|]). apply not_elem_of_nil. }
  destruct (worker_runs_until_stop _ _ _ _ Hnot Hrun) as (Hf & _ & Hj & _).
  exists s. by repeat split.
Defined.

Section LoopAsSequence.

Context {args world exn : Type}.

#[local] Abbreviation event_bus := (event_bus args world exn).
#[local] Abbreviation task := (task args).
#[local] Abbreviation system := (system args world exn).
#[local] Abbreviation label := (label args world exn).

Implicit Types (s : system) (l : label) (ls : list label) (t : task)
  (h : gmap bus_ref event_bus) (w : world).

(** *** The loop against direct dispatch *)

Lemma run_tasks_snoc h (ts : list task) t w :
  run_tasks h (ts ++ [t]) w =
    match run_tasks h ts w with
    | Returns w1 =>
        match (invoke_each
                 (handlers_of (bus_at h (task_bus t)) (task_event t))
                 (task_args t) w1).2 with
        | Returns w2 => Returns w2
        | Throws e w2 => Throws e w2
        end
    | Throws e w1 => Throws e w1
    end.
Proof.
  revert w. induction ts as [|t1 ts IH]; intros w; simpl.
  - rewrite trigger_unfold. simpl. by destruct (invoke_each _ _ _).2.
  - rewrite trigger_unfold. simpl.
    destruct (invoke_each _ _ _).2 as [w1|e w1]; [apply IH | done].
Qed.

(** A step that is not a client's bus call leaves the buses, the world and
    the completed tasks alone, unless it is the worker running the task it
    holds. *)
Lemma step_world l s s' :
  is_call_bus l = false → step l s = Next s' →
  (buses s' = buses s ∧ sys_world s' = sys_world s ∧
   completed s' = completed s) ∨
  (∃ t, event_loop_thread_ (loop s) = Holding t ∧
     buses s' = <[task_bus t := bus_at (buses s) (task_bus t)]> (buses s) ∧
     completed s' = completed s ++ [t] ∧
     (invoke_each
        (handlers_of (bus_at (buses s) (task_bus t)) (task_event t))
        (task_args t) (sys_world s)).2 = Returns (sys_world s')).
Proof.
  destruct l as [r n a| | | |r o|]; simpl; intros Hl; [..|done|].
  - intros [= <-]. by left.
  - intros [-> _]%wait_returns_inv. by left.
  - intros [= <-]. by left.
  - unfold join. destruct (event_loop_thread_ (loop s)); try done.
    intros [= <-]. by left.
  - destruct (event_loop_thread_ (loop s)) as [|t| |] eqn:Hpc.
    + unfold process_event_loop. rewrite Hpc.
      destruct (async_event_queue_ (loop s)); [destruct (stop_flag_ _)|];
        try done; intros [= <-]; by left.
    + rewrite (worker_step_holding s t Hpc).
      destruct (invoke_each _ _ _).2 as [w'|e w'] eqn:Hc; [|done].
      intros [= <-]. right. exists t. by rewrite Hc.
    + unfold process_event_loop. rewrite Hpc. intros [= <-]. by left.
    + unfold process_event_loop. by rewrite Hpc.
Qed.

(** Without bus calls by the clients, the buses stay as they were and the
    world is the one that direct triggers for the completed tasks give. *)
Lemma run_world h w ls s s' :
  Forall (λ l, is_call_bus l = false) ls →
  (∀ r, bus_at (buses s) r = bus_at h r) →
  run_tasks h (completed s) w = Returns (sys_world s) →
  run ls s = Next s' →
  (∀ r, bus_at (buses s') r = bus_at h r) ∧
  run_tasks h (completed s') w = Returns (sys_world s').
Proof.
  revert s. induction ls as [|l ls IH]; intros s Hls Hb Hw; simpl.
  - by intros [= <-].
  - apply Forall_cons in Hls as [Hl Hls].
    destruct (step l s) as [s1| |] eqn:Hstep; [|done..].
    apply (IH s1 Hls).
    + destruct (step_world l s s1 Hl Hstep)
        as [(-> & _)|(t & _ & -> & _)]; [done|].
      intros r. by rewrite bus_at_insert_same.
    + destruct (step_world l s s1 Hl Hstep)
        as [(_ & -> & ->)|(t & _ & _ & -> & Hc)]; [done|].
      rewrite run_tasks_snoc, Hw, <- Hb. by rewrite Hc.
Qed.

(** A schedule that ends the program does so at a step of the worker. *)
Lemma run_terminate_inv ls s w' :
  run ls s = Terminate w' →
  ∃ ls1 ls2 s1, ls = ls1 ++ Worker :: ls2 ∧ run ls1 s = Next s1 ∧
                process_event_loop s1 = Terminate w'.
Proof.
  revert s. induction ls as [|l ls IH]; intros s; simpl; [done|].
  destruct (step l s) as [s1| |w1] eqn:Hstep; [|done|].
  - intros (ls1 & ls2 & s2 & -> & Hrun & Hterm)%IH.
    exists (l :: ls1), ls2, s2. simpl. by rewrite Hstep.
  - intros [= ->].
    destruct l as [r n a| | | |r o|]; simpl in Hstep.
    + done.
    + unfold wait_until_finished in Hstep.
      by destruct (async_event_queue_ (loop s)).
    + done.
    + unfold join in Hstep. by destruct (event_loop_thread_ (loop s)).
    + destruct (call_bus_fields r o s) as (s1 & Hs1 & _).
      by rewrite Hs1 in Hstep.
    + by exists [], ls, s.
Qed.

Lemma worker_terminate_inv s w' :
  process_event_loop s = Terminate w' →
  ∃ t e, event_loop_thread_ (loop s) = Holding t ∧
    (invoke_each
       (handlers_of (bus_at (buses s) (task_bus t)) (task_event t))
       (task_args t) (sys_world s)).2 = Throws e w'.
Proof.
  destruct (event_loop_thread_ (loop s)) as [|t| |] eqn:Hpc.
  - unfold process_event_loop. rewrite Hpc.
    by destruct (async_event_queue_ (loop s)); [destruct (stop_flag_ _)|].
  - rewrite (worker_step_holding s t Hpc).
    destruct (invoke_each _ _ _).2 as [w1|e w1] eqn:Hc; [done|].
    intros [= ->]. by exists t, e.
  - unfold process_event_loop. by rewrite Hpc.
  - unfold process_event_loop. by rewrite Hpc.
Qed.

End LoopAsSequence.

(** X11: when the clients make no bus calls of their own, dispatch through
    the loop is dispatch by direct triggers: in every state a schedule
    reaches, the world is the one that calling [trigger] for the completed
    tasks, in order, on the buses as they were at the start, gives; the
    completed tasks are the first of the enqueued ones; and the buses are
    as they were. *)
Theorem loop_dispatch_equals_direct_triggers {args world exn : Type}
    (h : gmap bus_ref (event_bus args world exn)) (w : world)
    (ls : list (label args world exn)) (s : system args world exn) :
  Forall (λ l, is_call_bus l = false) ls →
  run ls (init h w) = Next s →
  run_tasks h (completed s) w = Returns (sys_world s) ∧
  (∀ r, bus_at (buses s) r = bus_at h r) ∧
  ∃ rest, tasks_of ls = completed s ++ rest.
Proof.
  intros Hls Hrun.
  destruct (run_world h w ls (init h w) s Hls) as [Hb Hw]; try done.
  split; [exact Hw|]. split; [exact Hb|].
  destruct (reachable_loop_inv _ _ _ _ Hrun) as [Hinv _].
  pose proof (run_enqueued _ _ _ Hrun) as Henq. simpl in Henq.
  rewrite <- Henq, Hinv. eauto.
Qed.

Lemma loop_dispatch_equals_direct_triggers_witness :
  ∃ s, run Sample.three_tasks (init Sample.shared_buses []) = Next s ∧
       Forall (λ l, is_call_bus l = false) Sample.three_tasks ∧
       run_tasks Sample.shared_buses (completed s) []
         = Returns [("factorial", 15)] ∧
       sys_world s = [("factorial", 15)].
Proof.
  destruct (run Sample.three_tasks (init Sample.shared_buses []))
    as [s| |] eqn:Hrun; [|by vm_compute in Hrun..].
  assert (Forall (λ l : label Z Sample.log string, is_call_bus l = false)
            Sample.three_tasks) as Hls
    by (unfold Sample.three_tasks; repeat constructor).
  destruct (loop_dispatch_equals_direct_triggers _ _ _ _ Hls Hrun)
    as (Hw & _ & _).
  exists s. split; [reflexivity|]. split; [exact Hls|].
  assert (sys_world s = [("factorial", 15)]) as Hworld
    by (vm_compute in Hrun; by injection Hrun as <-).
  split; [by rewrite Hw, Hworld | exact Hworld].
Defined.

(** X12: when the clients make no bus calls of their own and a schedule
    ends the program, direct triggers for the enqueued tasks, in order,
    throw at the same task and leave the same world: the tasks before it
    return, and the trigger for it throws with the world that
    [std::terminate] finds. *)
Theorem loop_termination_equals_direct_throw {args world exn : Type}
    (h : gmap bus_ref (event_bus args world exn)) (w : world)
    (ls : list (label args world exn)) (w' : world) :
  Forall (λ l, is_call_bus l = false) ls →
  run ls (init h w) = Terminate w' →
  ∃ ts t rest w1 e,
    tasks_of ls = ts ++ t :: rest ∧
    run_tasks h ts w = Returns w1 ∧
    run_tasks h (ts ++ [t]) w = Throws e w'.
Proof.
  intros Hls (ls1 & ls2 & s1 & -> & Hrun & Hterm)%run_terminate_inv.
  apply Forall_app in Hls as [Hls1 _].
  destruct (worker_terminate_inv s1 w' Hterm) as (t & e & Hpc & Hc).
  destruct (run_world h w ls1 (init h w) s1 Hls1) as [Hb Hw]; try done.
  destruct (reachable_loop_inv _ _ _ _ Hrun) as [Hinv _].
  pose proof (run_enqueued _ _ _ Hrun) as Henq. simpl in Henq.
  unfold in_flight in Hinv. rewrite Hpc, Henq in Hinv.
  exists (completed s1), t,
    (async_event_queue_ (loop s1) ++ tasks_of (Worker :: ls2)),
    (sys_world s1), e.
  split; [|split].
  - rewrite tasks_of_app, Hinv. by rewrite <- !app_assoc.
  - exact Hw.
  - rewrite run_tasks_snoc, Hw, <- Hb. by rewrite Hc.
Qed.

Lemma loop_termination_equals_direct_throw_witness :
  run Sample.throwing_task (init Sample.shared_buses []) = Terminate [] ∧
  Forall (λ l, is_call_bus l = false) Sample.throwing_task ∧
  ∃ ts t rest w1 e,
    tasks_of Sample.throwing_task = ts ++ t :: rest ∧
    run_tasks Sample.shared_buses ts [] = Returns w1 ∧
    run_tasks Sample.shared_buses (ts ++ [t]) [] = Throws e [].
Proof.
  assert (run Sample.throwing_task (init Sample.shared_buses [])
            = Terminate []) as Hrun by (vm_compute; reflexivity).
  assert (Forall (λ l : label Z Sample.log string, is_call_bus l = false)
            Sample.throwing_task) as Hls
    by (unfold Sample.throwing_task; repeat constructor).
  split; [exact Hrun|]. split; [exact Hls|].
  exact (loop_termination_equals_direct_throw _ _ _ _ Hls Hrun).
Defined.

Section Quiescence.

Context {args world exn : Type}.

#[local] Abbreviation event_bus := (event_bus args world exn).
#[local] Abbreviation task := (task args).
#[local] Abbreviation system := (system args world exn).
#[local] Abbreviation label := (label args world exn).

Implicit Types (s : system) (t : task) (h : gmap bus_ref event_bus).

(** *** The worker alone brings the loop to rest *)

(** From the top of its loop the worker runs the queued tasks in order and
    comes to rest: blocked on an empty queue, or out of the loop when the
    flag is set. *)
Lemma settle_at_wait (q : list task) (f : bool) :
  ∀ h (w : world) (enq comp : list task),
    never_throws h →
    ∃ (k : nat) s',
      run (repeat Worker k)
        {| loop := {| async_event_queue_ := q; stop_flag_ := f;
                      event_loop_thread_ := AtWait |};
           buses := h; sys_world := w; enqueued := enq; completed := comp |}
        = Next s' ∧
      event_loop_thread_ (loop s') = (if f then Exited else AtWait) ∧
      stop_flag_ (loop s') = f ∧
      async_event_queue_ (loop s') = [] ∧
      completed s' = comp ++ q ∧ enqueued s' = enq.
Proof.
  induction q as [|t q IH]; intros h w enq comp Hh.
  - destruct f.
    + exists 1%nat. eexists. split; [reflexivity|]. simpl.
      by rewrite app_nil_r.
    + exists 0%nat. eexists. split; [reflexivity|]. simpl.
      by rewrite app_nil_r.
  - destruct (Hh (task_bus t) (task_event t) (task_args t) w) as [w' Hw'].
    destruct (IH (<[task_bus t := bus_at h (task_bus t)]> h) w' enq
                (comp ++ [t]) (never_throws_insert_same h _ Hh))
      as (k & s' & Hrun & Hpc & Hf & Hq & Hc & He).
    exists (S (S (S k))), s'.
    split; [|by rewrite Hc, <- app_assoc].
    change (repeat Worker (S (S (S k))))
      with (Worker :: Worker :: Worker :: repeat (@Worker args world exn) k).
    rewrite run_worker_cons. cbn [process_event_loop loop event_loop_thread_
      async_event_queue_ stop_flag_ buses sys_world enqueued completed].
    rewrite run_worker_cons. erewrite worker_step_holding by reflexivity.
    cbn [loop event_loop_thread_ async_event_queue_ stop_flag_ buses
         sys_world enqueued completed].
    rewrite Hw'. rewrite run_worker_cons.
    cbn [process_event_loop loop event_loop_thread_
      async_event_queue_ stop_flag_ buses sys_world enqueued completed].
    exact Hrun.
Qed.

Lemma settle s :
  loop_inv s → event_loop_thread_ (loop s) ≠ Exited →
  never_throws (buses s) →
  ∃ (k : nat) s',
    run (repeat Worker k) s = Next s' ∧
    event_loop_thread_ (loop s') =
      (if stop_flag_ (loop s) then Exited else AtWait) ∧
    stop_flag_ (loop s') = stop_flag_ (loop s) ∧
    async_event_queue_ (loop s') = [] ∧
    completed s' = enqueued s ∧ enqueued s' = enqueued s.
Proof.
  destruct s as [[q f pc] h w enq comp]. unfold loop_inv, in_flight. simpl.
  intros [Henq _] Hpc Hh. destruct pc as [|t| |]; [| | |done].
  - destruct (settle_at_wait q f h w enq comp Hh)
      as (k & s' & Hrun & Hpc' & Hf & Hq & Hc & He).
    exists k, s'. split; [exact Hrun|]. split; [done|]. split; [done|].
    split; [done|]. split; [|done]. by rewrite Hc, Henq.
  - destruct (Hh (task_bus t) (task_event t) (task_args t) w) as [w' Hw'].
    destruct (settle_at_wait q f (<[task_bus t := bus_at h (task_bus t)]> h)
                w' enq (comp ++ [t]) (never_throws_insert_same h _ Hh))
      as (k & s' & Hrun & Hpc' & Hf & Hq & Hc & He).
    exists (S (S k)), s'.
    split; [|split; [done|]; split; [done|]; split; [done|]; split; [|done];
              by rewrite Hc, Henq, <- app_assoc].
    change (repeat Worker (S (S k)))
      with (Worker :: Worker :: repeat (@Worker args world exn) k).
    rewrite run_worker_cons. erewrite worker_step_holding by reflexivity.
    cbn [loop event_loop_thread_ async_event_queue_ stop_flag_ buses
         sys_world enqueued completed].
    rewrite Hw'. rewrite run_worker_cons.
    cbn [process_event_loop loop event_loop_thread_
      async_event_queue_ stop_flag_ buses sys_world enqueued completed].
    exact Hrun.
  - destruct (settle_at_wait q f h w enq comp Hh)
      as (k & s' & Hrun & Hpc' & Hf & Hq & Hc & He).
    exists (S k), s'.
    split; [|split; [done|]; split; [done|]; split; [done|]; split; [|done];
              by rewrite Hc, Henq].
    change (repeat Worker (S k))
      with (Worker :: repeat (@Worker args world exn) k).
    rewrite run_worker_cons.
    cbn [process_event_loop loop event_loop_thread_
      async_event_queue_ stop_flag_ buses sys_world enqueued completed].
    exact Hrun.
Qed.

End Quiescence.

(** * The helper of the demonstration program *)

Lemma foldr_mul_snoc (l : list Z) (x : Z) :
  foldr Z.mul 1 (l ++ [x]) = x * foldr Z.mul 1 l.
Proof.
  induction l as [|y l IH]; simpl; [lia|]. rewrite IH. lia.
Qed.

(** The factorial of the Standard Library, as a product of integers. *)
Lemma fact_as_product (k : nat) :
  Z.of_nat (fact k) = foldr Z.mul 1 (seqZ 1 (Z.of_nat k)).
Proof.
  induction k as [|k IH]; [done|].
  rewrite seqZ_S, foldr_mul_snoc, <- IH.
  change (fact (S k)) with (S k * fact k)%nat. lia.
Qed.

(** X14: [factorial n] is the factorial of [n] for every [n] from 0 to 20,
    which covers the arguments 15 to 20 of the demonstration; it has no
    result for a negative [n]; and 21! is beyond [int64_t], where the
    product wraps around. *)
Theorem factorial_is_exact_up_to_20 :
  (∀ n, 0 ≤ n ≤ 20 → factorial n = Some (Z.of_nat (fact (Z.to_nat n)))) ∧
  (∀ n, n < 0 → factorial n = None) ∧
  9223372036854775807 < Z.of_nat (fact 21) ∧
  factorial 21 = Some (-4249290049419214848).
Proof.
  split; [|split; [|split]].
  - intros n Hn. rewrite fact_as_product.
    assert (∃ k : nat, n = Z.of_nat k ∧ (k ≤ 20)%nat) as (k & -> & Hk)
      by (exists (Z.to_nat n); lia).
    do 21 (destruct k as [|k]; [vm_compute; reflexivity|]). lia.
  - intros n Hn. unfold factorial. by rewrite decide_True.
  - rewrite fact_as_product. vm_compute. reflexivity.
  - vm_compute. reflexivity.
Qed.

Lemma factorial_is_exact_up_to_20_witness :
  0 ≤ 20 ≤ 20 ∧ factorial 20 = Some 2432902008176640000 ∧
  -1 < 0 ∧ factorial (-1) = None.
Proof.
  destruct factorial_is_exact_up_to_20 as (Hexact & Hneg & _).
  assert (0 ≤ 20 ≤ 20) as H20 by lia.
  assert (-1 < 0) as Hm1 by lia.
  split; [exact H20|]. split; [|split; [exact Hm1 | exact (Hneg _ Hm1)]].
  rewrite (Hexact 20 H20), fact_as_product. vm_compute. reflexivity.
Defined.

(** * Instances of the further bus and flag properties *)

Lemma subscribe_appends_handler_witness :
  let b := Sample.one_subscriber in
  let b' := (subscribe "OnCalc" (Sample.thrower "boom") b).2 in
  "OnMessage" ≠ "OnCalc" ∧
  subscribers_ b' !! "OnMessage" = subscribers_ b !! "OnMessage" ∧
  (trigger "OnCalc" 4 b' []).2 =
    ([(Sample.logger "calc", 4); (Sample.thrower "boom", 4)],
     Throws "boom" [("calc", 4)]).
Proof.
  intros b b'.
  destruct (subscribe_appends_handler b "OnCalc" (Sample.thrower "boom"))
    as (_ & _ & Hother & Hsame).
  assert ("OnMessage" ≠ "OnCalc") as Hne by done.
  split; [exact Hne|]. split; [exact (proj1 (Hother "OnMessage" Hne))|].
  exact (Hsame 4 []).
Defined.

Lemma unsubscribe_removes_matching_witness :
  let b : event_bus Z Sample.log string :=
    (run_ops [OpSubscribe "OnMessage" (Sample.logger "H1");
              OpSubscribe "OnMessage" (Sample.logger "H2");
              OpSubscribe "OnCalc" (Sample.logger "calc")] (new_bus, [])).1.1 in
  let b' := unsubscribe "OnMessage" 0 b in
  "OnCalc" ≠ "OnMessage" ∧
  subscribers_ b' !! "OnCalc" = subscribers_ b !! "OnCalc" ∧
  handlers_of b' "OnMessage" `sublist_of` handlers_of b "OnMessage" ∧
  unsubscribe "OnMessage" 0 b' = b'.
Proof.
  intros b b'.
  destruct (unsubscribe_removes_matching b "OnMessage" 0)
    as (_ & Hsub & Hother & _ & Hidem).
  assert ("OnCalc" ≠ "OnMessage") as Hne by done.
  split; [exact Hne|]. split; [exact (Hother "OnCalc" Hne)|].
  split; [exact Hsub | exact Hidem].
Defined.

Lemma stop_flag_is_monotone_witness :
  ∃ s s' : system Z Sample.log string,
    run [CallStop] (init Sample.quiet_buses []) = Next s ∧
    stop_flag_ (loop s) = true ∧
    run [CallEnqueue 0%nat "OnFactorial" 15; Worker; Worker; CallStop] s
      = Next s' ∧
    stop_flag_ (loop s') = true ∧
    (CallStop ∉ [@Worker Z Sample.log string]) ∧
    run [Worker] (init Sample.quiet_buses [] : system Z Sample.log string)
      = Blocked.
Proof.
  destruct (@stop_flag_is_monotone Z Sample.log string)
    as (Hstop & Hset & _).
  destruct (Hstop (init Sample.quiet_buses [])) as (s & Hs & Hf & _).
  destruct (run [CallEnqueue 0%nat "OnFactorial" 15; Worker; Worker; CallStop]
              s) as [s'| |] eqn:Hrun;
    [|simpl in Hs; injection Hs as <-; by vm_compute in Hrun..].
  exists s, s'. split; [cbn [run step]; by rewrite Hs|]. split; [exact Hf|].
  split; [exact Hrun|]. split; [exact (Hset _ _ _ Hf Hrun)|].
  split; [|reflexivity].
  rewrite not_elem_of_cons. split; [done | apply not_elem_of_nil].
Defined.

(** * Completion as execution *)

Section Execution.

Context {args world exn : Type}.

#[local] Abbreviation event_bus := (event_bus args world exn).
#[local] Abbreviation task := (task args).
#[local] Abbreviation system := (system args world exn).
#[local] Abbreviation label := (label args world exn).

Implicit Types (s : system) (l : label) (ls : list label) (t : task)
  (h : gmap bus_ref event_bus) (w : world).

(** The step that completes a task is the worker's call of it, and the
    world after the step is the one the call left. *)
Lemma worker_step_executes s s' t :
  event_loop_thread_ (loop s) = Holding t →
  process_event_loop s = Next s' →
  ∃ cs,
    (trigger_impl (task_event t) (task_args t)
       (bus_at (buses s) (task_bus t)) (sys_world s)).2
      = (cs, Returns (sys_world s')) ∧
    completed s' = completed s ++ [t].
Proof.
  intros Hpc. rewrite (worker_step_holding s t Hpc), trigger_impl_unfold.
  simpl. destruct (invoke_each _ _ _) as [cs [w'|e w']]; simpl; [|done].
  intros [= <-]. by exists cs.
Qed.

Lemma run_completed_prefix ls s s' :
  run ls s = Next s' → completed s `prefix_of` completed s'.
Proof.
  revert s. induction ls as [|l ls IH]; intros s; simpl.
  - by intros [= <-].
  - destruct (step l s) as [s1| |] eqn:Hstep; [|done..]. intros Hrun.
    etrans; [|by apply (IH s1)].
    destruct (step_completed l s s1 Hstep) as [->|(_ & t & _ & ->)];
      [done | by apply prefix_app_r].
Qed.

(** Every task in the list of completed tasks got there by being run. *)
Lemma run_executed ls s0 s (k : nat) t :
  run ls s0 = Next s →
  (length (completed s0) ≤ k)%nat →
  completed s !! k = Some t →
  executed_in ls s0 k t.
Proof.
  revert s0. induction ls as [|l ls IH]; intros s0; simpl.
  - intros [= <-] Hk Ht. apply lookup_lt_Some in Ht. lia.
  - destruct (step l s0) as [s1| |] eqn:Hstep; [|done..].
    intros Hrun Hk Ht.
    destruct (decide (length (completed s1) ≤ k)%nat) as [Hk1|Hk1].
    + destruct (IH s1 Hrun Hk1 Ht)
        as (pre & post & sa & sb & cs & -> & Hpre & Hrest).
      exists (l :: pre), post, sa, sb, cs. split; [done|].
      split; [simpl; by rewrite Hstep | exact Hrest].
    + destruct (step_completed l s0 s1 Hstep) as [Heq|(-> & t0 & Hpc & Hc)];
        [rewrite Heq in Hk1; lia|].
      rewrite Hc, length_app in Hk1. simpl in Hk1.
      assert (k = length (completed s0)) as -> by lia.
      destruct (run_completed_prefix ls s1 s Hrun) as [rest Hrest].
      rewrite Hrest, Hc, <- app_assoc in Ht.
      change ([t0] ++ rest) with (t0 :: rest) in Ht.
      rewrite list_lookup_middle in Ht by done. injection Ht as <-.
      simpl in Hstep.
      destruct (worker_step_executes s0 s1 t0 Hpc Hstep) as (cs & Hcs & _).
      by exists [], ls, s0, s1, cs.
Qed.

Lemma repeat_worker_no_bus_call (k : nat) :
  Forall (λ l : label, is_call_bus l = false) (repeat Worker k).
Proof. induction k; simpl; by constructor. Qed.

(** Once the worker thread is over, only a client's bus call changes the
    world. *)
Lemma run_after_exit_world ls s s' :
  event_loop_thread_ (loop s) = Exited →
  Forall (λ l, is_call_bus l = false) ls →
  run ls s = Next s' → sys_world s' = sys_world s.
Proof.
  revert s. induction ls as [|l ls IH]; intros s Hex Hls; simpl.
  - by intros [= <-].
  - apply Forall_cons in Hls as [Hl Hls].
    destruct (step l s) as [s1| |] eqn:Hstep; [|done..]. intros Hrun.
    destruct (step_after_exit l s s1 Hex Hstep) as (Hex1 & _).
    rewrite (IH s1 Hex1 Hls Hrun).
    destruct (step_world l s s1 Hl Hstep) as [(_ & -> & _)|(t & Hpc & _)];
      [done | congruence].
Qed.

End Execution.

(** ** Stop and destruction, with the tasks run *)

(** C5: when [stop()] is called while the worker thread has not left its
    loop (as is the case of the call that sets the stop flag) and the loop
    is then destroyed (the join of the destructor returns), every task
    enqueued before that [stop()] has been executed, in order: each was run
    at a step of the schedule, where the worker called [trigger_impl] for
    it, the call returned and left its world to the next state; when the
    clients make no bus calls of their own the final world is the one that
    direct triggers for the completed tasks give. After the join no task is
    executed: the worker takes no step, the completed tasks stay the same
    and, short of a client's bus call, so does the world. The worker leaves
    its loop exactly on a step taken at the top of the loop with the stop
    flag set and the queue empty, and no client call moves it. And when no
    handler throws, the worker left alone after [stop()] runs the tasks and
    leaves its loop, so that the join returns. *)
Theorem stop_then_destroy_drains {args world exn : Type}
    (h : gmap bus_ref (event_bus args world exn)) (w : world)
    (ls1 ls2 : list (label args world exn))
    (s1 s : system args world exn) :
  run ls1 (init h w) = Next s1 →
  event_loop_thread_ (loop s1) ≠ Exited →
  run (CallStop :: ls2 ++ [CallJoin]) s1 = Next s →
  (∃ later, completed s = tasks_of ls1 ++ later) ∧
  (∀ (k : nat) t, tasks_of ls1 !! k = Some t →
     executed_in (ls1 ++ CallStop :: ls2 ++ [CallJoin]) (init h w) k t) ∧
  (Forall (λ l, is_call_bus l = false) (ls1 ++ ls2) →
     run_tasks h (completed s) w = Returns (sys_world s)) ∧
  (∀ ls' s', run ls' s = Next s' →
     completed s' = completed s ∧ process_event_loop s' = Blocked ∧
     (Forall (λ l, is_call_bus l = false) ls' →
      sys_world s' = sys_world s)) ∧
  (∀ x x' : system args world exn, process_event_loop x = Next x' →
     event_loop_thread_ (loop x') = Exited ↔
       event_loop_thread_ (loop x) = AtWait ∧ stop_flag_ (loop x) = true ∧
       async_event_queue_ (loop x) = []) ∧
  (∀ l (x x' : system args world exn), l ≠ Worker → step l x = Next x' →
     event_loop_thread_ (loop x') = event_loop_thread_ (loop x)) ∧
  (never_throws (buses s1) →
     ∃ (k : nat) s3,
       run (CallStop :: repeat Worker k ++ [CallJoin]) s1 = Next s3 ∧
       completed s3 = tasks_of ls1 ∧
       ∀ (i : nat) t, tasks_of ls1 !! i = Some t →
         executed_in (ls1 ++ CallStop :: repeat Worker k ++ [CallJoin])
           (init h w) i t).
Proof.
  intros Hrun1 Hrunning Hrun.
  pose proof (reachable_loop_inv _ _ _ _ Hrun1) as Hinv1.
  pose proof (run_enqueued _ _ _ Hrun1) as Henq1. simpl in Henq1.
  assert (run (ls1 ++ CallStop :: ls2 ++ [CallJoin]) (init h w) = Next s)
    as Hall by (by rewrite run_app, Hrun1).
  change (CallStop :: ls2 ++ [CallJoin])
    with ([CallStop] ++ ls2 ++ [CallJoin]) in Hrun.
  apply run_app_next in Hrun as (s2 & Hstop & Hrun).
  apply run_app_next in Hrun as (s3 & Hrun2 & Hjoin).
  assert (loop_inv s2) as Hinv2
    by (by eapply (run_preserves loop_inv step_loop_inv)).
  simpl in Hstop. injection Hstop as Hs2.
  assert (event_loop_thread_ (loop s3) = Exited ∧ s3 = s) as [Hex3 ->].
  { simpl in Hjoin. unfold join in Hjoin.
    destruct (event_loop_thread_ (loop s3)); try done.
    by injection Hjoin as ->. }
  assert (∃ later, completed s = tasks_of ls1 ++ later) as [later Hdone].
  { rewrite <- Henq1.
    apply (run_drained (enqueued s1) ls2 s2 s); try done.
    + subst s2. simpl. by intros ?.
    + subst s2. simpl. exists []. by rewrite app_nil_r. }
  split; [by exists later|].
  split; [|split; [|split; [|split; [|split]]]].
  - intros k t Ht. apply (run_executed _ _ s); [done | simpl; lia|].
    rewrite Hdone. by apply lookup_app_l_Some.
  - intros Hls.
    assert (Forall (λ l : label args world exn, is_call_bus l = false)
              (ls1 ++ CallStop :: ls2 ++ [CallJoin])) as Hls'.
    { apply Forall_app in Hls as [H1 H2]. apply Forall_app. split; [done|].
      constructor; [done|]. apply Forall_app. split; [done|].
      by constructor. }
    by destruct (run_world h w _ (init h w) s Hls').
  - intros ls' s' Hrun'.
    destruct (run_after_exit ls' s s' Hex3 Hrun') as (Hex' & Hc' & _).
    split; [done|]. split; [by apply worker_exited_blocked|].
    intros Hls'. by apply (run_after_exit_world ls' s s').
  - apply worker_exit_iff.
  - intros l x x' Hl Hstep. by destruct (step_client l x x' Hl Hstep).
  - intros Hquiet.
    destruct (drain s2) as (k & s4 & Hdrain & Hex4 & _ & Hc4 & _);
      try (subst s2; done).
    assert (run (CallStop :: repeat Worker k ++ [CallJoin]) s1 = Next s4)
      as Hrun4.
    { change (CallStop :: repeat Worker k ++ [CallJoin])
        with ([CallStop] ++ repeat Worker k ++ [@CallJoin args world exn]).
      rewrite run_app. simpl. rewrite Hs2, run_app, Hdrain. simpl.
      unfold join. by rewrite Hex4. }
    assert (completed s4 = tasks_of ls1) as Hc by (subst s2; by rewrite <- Henq1).
    exists k, s4. split; [exact Hrun4|]. split; [exact Hc|].
    intros i t Ht. apply (run_executed _ _ s4); [|simpl; lia|by rewrite Hc].
    by rewrite run_app, Hrun1.
Qed.

Lemma stop_then_destroy_drains_witness :
  ∃ s1 s,
    run Sample.before_stop (init Sample.quiet_buses []) = Next s1 ∧
    event_loop_thread_ (loop s1) ≠ Exited ∧
    run (CallStop :: Sample.after_stop ++ [CallJoin]) s1 = Next s ∧
    (∃ later, completed s = tasks_of Sample.before_stop ++ later) ∧
    executed_in
      (Sample.before_stop ++ CallStop :: Sample.after_stop ++ [CallJoin])
      (init Sample.quiet_buses []) 1 (mk_task 0%nat "OnFactorial" 16) ∧
    completed s = [mk_task 0%nat "OnFactorial" 15;
                   mk_task 0%nat "OnFactorial" 16] ∧
    sys_world s = [("factorial", 15); ("factorial", 16)] ∧
    async_event_queue_ (loop s) = [mk_task 0%nat "OnFactorial" 17] ∧
    ∃ (k : nat) s3,
      run (CallStop :: repeat Worker k ++ [CallJoin]) s1 = Next s3 ∧
      completed s3 = tasks_of Sample.before_stop.
Proof.
  destruct (run Sample.before_stop (init Sample.quiet_buses []))
    as [s1| |] eqn:Hrun1; [|by vm_compute in Hrun1..].
  destruct (run (CallStop :: Sample.after_stop ++ [CallJoin]) s1)
    as [s| |] eqn:Hrun;
    [|vm_compute in Hrun1; injection Hrun1 as <-; by vm_compute in Hrun..].
  assert (event_loop_thread_ (loop s1) ≠ Exited) as Hflag
    by (vm_compute in Hrun1; by injection Hrun1 as <-).
  exists s1, s. split; [reflexivity|]. split; [exact Hflag|].
  split; [exact Hrun|].
  destruct (stop_then_destroy_drains _ _ _ _ _ _ Hrun1 Hflag Hrun)
    as (Hdrained & Hexec & _ & _ & _ & _ & Hlive).
  split; [exact Hdrained|].
  split; [by apply Hexec|].
  assert (buses s1 = Sample.quiet_buses) as Hb
    by (vm_compute in Hrun1; by injection Hrun1 as <-).
  rewrite Hb in Hlive.
  destruct (Hlive quiet_buses_never_throw) as (k & s3 & Hk & Hc3 & _).
  vm_compute in Hrun1. injection Hrun1 as <-.
  vm_compute in Hrun. injection Hrun as <-.
  split; [reflexivity|]. split; [reflexivity|]. split; [reflexivity|].
  by exists k, s3.
Defined.

(** ** Waiting and coming to rest, with the tasks run *)

(** X7: when [wait_until_finished] returns, the queue is empty: every task
    enqueued before has been popped by the worker, and all of them have
    completed except, at most, the one the worker holds; if the worker
    holds none, all have completed. A task that has completed was run at a
    step of the schedule, where the worker called [trigger_impl] for it and
    the call returned, leaving its world to the next state; and when the
    clients make no bus calls of their own, the world at the return is the
    one that direct triggers for the completed tasks give. *)
Theorem wait_returns_with_queue_empty {args world exn : Type}
    (h : gmap bus_ref (event_bus args world exn)) (w : world)
    (ls : list (label args world exn)) (s : system args world exn) :
  run (ls ++ [CallWait]) (init h w) = Next s →
  async_event_queue_ (loop s) = [] ∧
  tasks_of ls = completed s ++ in_flight s ∧
  (length (in_flight s) ≤ 1)%nat ∧
  (in_flight s = [] → completed s = tasks_of ls) ∧
  (∀ (k : nat) t, completed s !! k = Some t →
     executed_in ls (init h w) k t) ∧
  (Forall (λ l, is_call_bus l = false) ls →
     run_tasks h (completed s) w = Returns (sys_world s)).
Proof.
  intros (s1 & Hrun & Hwait)%run_app_next.
  simpl in Hwait.
  destruct (wait_until_finished s1) as [s2| |] eqn:Hw; [|done..].
  injection Hwait as ->. apply wait_returns_inv in Hw as [-> Hq].
  destruct (reachable_loop_inv _ _ _ _ Hrun) as [Hinv _].
  pose proof (run_enqueued _ _ _ Hrun) as Henq. simpl in Henq.
  rewrite Hq, app_nil_r, Henq in Hinv.
  split; [exact Hq|]. split; [exact Hinv|].
  split; [|split; [|split]].
  - unfold in_flight. destruct (event_loop_thread_ _); simpl; lia.
  - intros Hnone. by rewrite Hinv, Hnone, app_nil_r.
  - intros k t Ht. apply (run_executed _ _ s1); [done | simpl; lia | done].
  - intros Hls. by destruct (run_world h w ls (init h w) s1 Hls).
Qed.

Lemma wait_returns_with_queue_empty_witness :
  ∃ s, run ([CallEnqueue 0%nat "OnFactorial" 15;
             CallEnqueue 0%nat "OnFactorial" 16;
             Worker; Worker; Worker; Worker] ++ [CallWait])
         (init Sample.quiet_buses []) = Next s ∧
       completed s = [mk_task 0%nat "OnFactorial" 15] ∧
       in_flight s = [mk_task 0%nat "OnFactorial" 16] ∧
       sys_world s = [("factorial", 15)] ∧
       async_event_queue_ (loop s) = [] ∧
       executed_in [CallEnqueue 0%nat "OnFactorial" 15;
                    CallEnqueue 0%nat "OnFactorial" 16;
                    Worker; Worker; Worker; Worker]
         (init Sample.quiet_buses []) 0 (mk_task 0%nat "OnFactorial" 15).
Proof.
  destruct (run ([CallEnqueue 0%nat "OnFactorial" 15;
                  CallEnqueue 0%nat "OnFactorial" 16;
                  Worker; Worker; Worker; Worker] ++ [CallWait])
              (init Sample.quiet_buses [])) as [s| |] eqn:Hrun;
    [|by vm_compute in Hrun..].
  exists s. split; [reflexivity|].
  destruct (wait_returns_with_queue_empty _ _ _ _ Hrun)
    as (Hq & _ & _ & _ & Hexec & _).
  assert (completed s = [mk_task 0%nat "OnFactorial" 15]) as Hc
    by (vm_compute in Hrun; by injection Hrun as <-).
  split; [exact Hc|].
  split; [vm_compute in Hrun; by injection Hrun as <-|].
  split; [vm_compute in Hrun; by injection Hrun as <-|].
  split; [exact Hq|]. apply Hexec. by rewrite Hc.
Defined.

(** X13: as long as the worker thread has not left its loop and no handler
    throws, the worker, given the steps, brings the loop to rest: every
    task enqueued so far has completed, each run at a step of the schedule
    where the worker called [trigger_impl] for it and the call returned,
    leaving its world to the next state; the queue is empty, the worker is
    blocked (or, the stop flag set, out of its loop), and a
    [wait_until_finished] called then returns at once. When the clients
    have made no bus calls of their own, the world at rest is the one that
    direct triggers for all the enqueued tasks give. *)
Theorem worker_alone_reaches_quiescence {args world exn : Type}
    (h : gmap bus_ref (event_bus args world exn)) (w : world)
    (ls : list (label args world exn)) (s : system args world exn) :
  run ls (init h w) = Next s →
  event_loop_thread_ (loop s) ≠ Exited →
  never_throws (buses s) →
  ∃ (k : nat) s',
    run (repeat Worker k) s = Next s' ∧
    completed s' = tasks_of ls ∧
    async_event_queue_ (loop s') = [] ∧
    in_flight s' = [] ∧
    process_event_loop s' = Blocked ∧
    wait_until_finished s' = Next s' ∧
    run (ls ++ repeat Worker k ++ [CallWait]) (init h w) = Next s' ∧
    (∀ (i : nat) t, tasks_of ls !! i = Some t →
       executed_in (ls ++ repeat Worker k) (init h w) i t) ∧
    (Forall (λ l, is_call_bus l = false) ls →
       run_tasks h (tasks_of ls) w = Returns (sys_world s')).
Proof.
  intros Hrun Hpc Hquiet.
  pose proof (reachable_loop_inv _ _ _ _ Hrun) as Hinv.
  pose proof (run_enqueued _ _ _ Hrun) as Henq. simpl in Henq.
  destruct (settle s Hinv Hpc Hquiet)
    as (k & s' & Hk & Hpc' & Hf & Hq & Hc & _).
  assert (wait_until_finished s' = Next s') as Hwait
    by (unfold wait_until_finished; by rewrite Hq).
  assert (run (ls ++ repeat Worker k) (init h w) = Next s') as Hall
    by (by rewrite run_app, Hrun).
  rewrite Henq in Hc.
  exists k, s'. split; [exact Hk|]. split; [exact Hc|].
  split; [exact Hq|].
  split; [|split; [|split; [exact Hwait|split; [|split]]]].
  - unfold in_flight. rewrite Hpc'. by destruct (stop_flag_ (loop s)).
  - unfold process_event_loop. rewrite Hpc', Hq, Hf.
    by destruct (stop_flag_ (loop s)).
  - rewrite run_app, Hrun, run_app, Hk. simpl. by rewrite Hwait.
  - intros i t Ht.
    apply (run_executed _ _ s'); [done | simpl; lia | by rewrite Hc].
  - intros Hls. rewrite <- Hc.
    apply (run_world h w (ls ++ repeat Worker k) (init h w) s'); try done.
    apply Forall_app. split; [done | apply repeat_worker_no_bus_call].
Qed.

Lemma worker_alone_reaches_quiescence_witness :
  ∃ s (k : nat) s',
    run Sample.before_stop (init Sample.quiet_buses []) = Next s ∧
    event_loop_thread_ (loop s) ≠ Exited ∧
    never_throws (buses s) ∧
    Forall (λ l, is_call_bus l = false) Sample.before_stop ∧
    run (repeat Worker k) s = Next s' ∧
    completed s' = tasks_of Sample.before_stop ∧
    sys_world s' = [("factorial", 15); ("factorial", 16)] ∧
    wait_until_finished s' = Next s'.
Proof.
  destruct (run Sample.before_stop (init Sample.quiet_buses []))
    as [s| |] eqn:Hrun; [|by vm_compute in Hrun..].
  assert (event_loop_thread_ (loop s) ≠ Exited) as Hpc
    by (vm_compute in Hrun; by injection Hrun as <-).
  assert (buses s = Sample.quiet_buses) as Hb
    by (vm_compute in Hrun; by injection Hrun as <-).
  assert (never_throws (buses s)) as Hquiet
    by (rewrite Hb; apply quiet_buses_never_throw).
  assert (Forall (λ l : label Z Sample.log string, is_call_bus l = false)
            Sample.before_stop) as Hls
    by (unfold Sample.before_stop; repeat constructor).
  destruct (worker_alone_reaches_quiescence _ _ _ _ Hrun Hpc Hquiet)
    as (k & s' & Hk & Hc & _ & _ & _ & Hwait & _ & _ & Hworld).
  specialize (Hworld Hls).
  exists s, k, s'. split; [reflexivity|]. split; [exact Hpc|].
  split; [exact Hquiet|]. split; [exact Hls|]. split; [exact Hk|].
  split; [exact Hc|]. split; [|exact Hwait].
  assert (run_tasks Sample.quiet_buses (tasks_of Sample.before_stop) []
            = Returns [("factorial", 15); ("factorial", 16)]) as Hdirect
    by reflexivity.
  rewrite Hdirect in Hworld. by injection Hworld as <-.
Defined.
